(** * k8s-secret-template: a shallow embedding of the reconciliation engine

    The repository holds three near-duplicate Go programs:
    - [src/main.go]            (module [Main]): the data-preserving reconciler
      with the delete-and-recreate fallback;
    - [src/unnamed/part_000]   (module [Metadata]): the maintenance mode that
      only patches labels and annotations;
    - [src/unnamed/part_001]   (module [Legacy]): the earlier reconciler
      without fallback.

    Go maps are reference objects.  The label and annotation maps of a secret
    are therefore modelled as references into a store of maps, so that the
    in-place writes of the merge helper and the sharing between the live
    snapshot and the submitted object are visible. *)

From Stdlib Require Import String Ascii List ZArith Lia Bool.
From stdpp Require Import base gmap list strings.

Local Open Scope string_scope.
Local Open Scope list_scope.
Local Open Scope stdpp_scope.

(** ** The Go [strings] functions used by the programs *)

(** [strings.HasPrefix(s, prefix)]. *)
Fixpoint HasPrefix (s prefix : string) : bool :=
  match prefix with
  | EmptyString => true
  | String p prefix' =>
      match s with
      | EmptyString => false
      | String c s' => if Ascii.eqb c p then HasPrefix s' prefix' else false
      end
  end.

(** [strings.Contains(s, substr)]: some suffix of [s] starts with [substr]. *)
Fixpoint Contains (s substr : string) : bool :=
  if HasPrefix s substr then true
  else match s with
       | EmptyString => false
       | String _ s' => Contains s' substr
       end.

(** [strings.Split(s, sep)] for a non-empty separator: the pieces between the
    successive, non-overlapping occurrences of [sep], found left to right.
    [skip] counts the bytes of a separator that was just recognised and that
    are still to be passed over. *)
Fixpoint splitFrom (sep : string) (skip : nat) (s : string) : list string :=
  match s with
  | EmptyString => [EmptyString]
  | String c s' =>
      match skip with
      | S k => splitFrom sep k s'
      | O =>
          if HasPrefix s sep
          then EmptyString :: splitFrom sep (String.length sep - 1) s'
          else match splitFrom sep 0 s' with
               | [] => [String c EmptyString]
               | piece :: pieces => String c piece :: pieces
               end
      end
  end.

Definition Split (s sep : string) : list string := splitFrom sep 0 s.

(** [strings.Join(elems, sep)]. *)
Fixpoint Join (elems : list string) (sep : string) : string :=
  match elems with
  | [] => EmptyString
  | [e] => e
  | e :: rest => e +:+ sep +:+ Join rest sep
  end.

(** White space as [unicode.IsSpace] has it, on the UTF-8 bytes of the
    string: the ASCII characters tab, line feed, vertical tab, form feed,
    carriage return and space, and the encodings of U+0085, U+00A0, U+1680,
    U+2000..U+200A, U+2028, U+2029, U+202F, U+205F and U+3000. *)
Definition asciiSpace (b : N) : bool :=
  ((9 <=? b) && (b <=? 13) || (b =? 32))%N.

Definition space2 (b1 b2 : N) : bool :=
  ((b1 =? 194) && ((b2 =? 133) || (b2 =? 160)))%N.

Definition space3 (b1 b2 b3 : N) : bool :=
  ((b1 =? 225) && (b2 =? 154) && (b3 =? 128)
   || (b1 =? 226) && (b2 =? 128) &&
        ((128 <=? b3) && (b3 <=? 138) || (b3 =? 168) || (b3 =? 169) || (b3 =? 175))
   || (b1 =? 226) && (b2 =? 129) && (b3 =? 159)
   || (b1 =? 227) && (b2 =? 128) && (b3 =? 128))%N.

(** Width in bytes of the white-space character [s] starts with; 0 if it
    starts with none. *)
Definition leadingSpaceWidth (s : string) : nat :=
  match s with
  | EmptyString => 0
  | String c1 s1 =>
      let b1 := N_of_ascii c1 in
      if asciiSpace b1 then 1
      else match s1 with
           | EmptyString => 0
           | String c2 s2 =>
               let b2 := N_of_ascii c2 in
               if space2 b1 b2 then 2
               else match s2 with
                    | EmptyString => 0
                    | String c3 _ =>
                        if space3 b1 b2 (N_of_ascii c3) then 3 else 0
                    end
           end
  end.

(** The same for the white-space character a string ends with, read off the
    reversed string [r]. *)
Definition trailingSpaceWidth (r : string) : nat :=
  match r with
  | EmptyString => 0
  | String c1 r1 =>
      let b1 := N_of_ascii c1 in
      if asciiSpace b1 then 1
      else match r1 with
           | EmptyString => 0
           | String c2 r2 =>
               let b2 := N_of_ascii c2 in
               if space2 b2 b1 then 2
               else match r2 with
                    | EmptyString => 0
                    | String c3 _ =>
                        if space3 (N_of_ascii c3) b2 b1 then 3 else 0
                    end
           end
  end.

(** Drop white-space characters from the front, as measured by [width]. *)
Fixpoint trimFrom (width : string -> nat) (skip : nat) (s : string) : string :=
  match s with
  | EmptyString => EmptyString
  | String _ s' =>
      match skip with
      | S k => trimFrom width k s'
      | O => match width s with
             | O => s
             | S k => trimFrom width k s'
             end
      end
  end.

Definition TrimLeftSpace (s : string) : string := trimFrom leadingSpaceWidth 0 s.

Definition TrimRightSpace (s : string) : string :=
  String.rev (trimFrom trailingSpaceWidth 0 (String.rev s)).

(** [strings.TrimSpace(s)]. *)
Definition TrimSpace (s : string) : string := TrimRightSpace (TrimLeftSpace s).

Definition isBlank (s : string) : bool := String.eqb (TrimSpace s) EmptyString.

(** The line feed, which Rocq string literals cannot escape. *)
Definition LF : string := String "010"%char EmptyString.

(** ** Data model *)

(** A Go [map[string]string] value is a reference, [nil] or a map object in
    the store.  Reading a [nil] map yields no entries; writing to it panics. *)
Definition loc := positive.
Definition mapref := option loc.

(** [corev1.Secret], restricted to the fields the programs read or write.
    [Data] is never written by the programs and is kept as a value.
    [CreationTimestamp] is [None] for the zero time. *)
Record Secret := mkSecret {
  Namespace : string;
  Name : string;
  Labels : mapref;
  Annotations : mapref;
  Data : gmap string (list Byte.byte);
  UID : string;
  ResourceVersion : string;
  CreationTimestamp : option Z
}.

Definition setLabels (s : Secret) (m : mapref) : Secret :=
  mkSecret (Namespace s) (Name s) m (Annotations s) (Data s) (UID s)
           (ResourceVersion s) (CreationTimestamp s).

Definition setAnnotations (s : Secret) (m : mapref) : Secret :=
  mkSecret (Namespace s) (Name s) (Labels s) m (Data s) (UID s)
           (ResourceVersion s) (CreationTimestamp s).

(** A Go [error] value, identified with its message; [None] is [nil]. *)
Definition error := string.

(** What goes over the wire when a secret is submitted: the object together
    with the contents its maps have at that moment. *)
Record Wire := mkWire {
  wObject : Secret;
  wLabels : option (gmap string string);
  wAnnotations : option (gmap string string)
}.

(** JSON documents, as far as the metadata patch builds them. *)
#[local] Set Warnings "-register-all".
Inductive Json :=
| JNull
| JStringMap (m : gmap string string)
| JObject (members : list (string * Json)).
#[local] Set Warnings "register-all".

(** The requests the programs send to the cluster. *)
Inductive Call :=
| CallList (ns : string)
| CallGet (ns name : string)
| CallCreate (ns : string) (w : Wire)
| CallUpdate (ns : string) (w : Wire)
| CallDelete (ns name : string)
| CallPatch (ns name : string) (payload : Json).

(** The cluster answers each request from the requests made so far and the
    request's arguments.  Only the error of Get, Create, Update, Delete and
    Patch is used by the programs. *)
Record Cluster := mkCluster {
  onList : list Call -> string -> list Secret + error;
  onGet : list Call -> string -> string -> option error;
  onCreate : list Call -> string -> Wire -> option error;
  onUpdate : list Call -> string -> Wire -> option error;
  onDelete : list Call -> string -> string -> option error;
  onPatch : list Call -> string -> string -> Json -> option error
}.

(** The group, version and kind of a decoded object, and the object itself
    when its Go type is [*corev1.Secret]. *)
Record Object := mkObject {
  objGVK : string * string * string;
  objSecret : option Secret
}.

Record DirEntry := mkDirEntry { entryName : string; entryIsDir : bool }.

(** Everything outside the programs: the process environment, the file
    system, [path.Join], the universal deserializer and the cluster. *)
Record Env := mkEnv {
  envSECRETS_DIR : string;
  osArgs : list string;
  ReadDir : string -> list DirEntry + error;
  ReadFile : string -> string + error;
  pathJoin : string -> string -> string;
  Decode : string -> Object + error;
  cluster : Cluster
}.

(** ** Program state and control *)

(** The store holds every map object of the run, those of the secrets
    that the decoder and the cluster will hand out included; the requests
    made so far are kept in order. *)
Record World := mkWorld {
  store : gmap loc (gmap string string);
  calls : list Call
}.

(** A run returns, panics, or leaves the process through [log.Fatal]. *)
Inductive Outcome (A : Type) :=
| Returned (a : A)
| Panicked
| Exited (status : Z).
Arguments Returned {A} a.
Arguments Panicked {A}.
Arguments Exited {A} status.

Definition Go (A : Type) : Type := World -> Outcome A * World.

#[global] Instance Go_ret : MRet Go := fun A a w => (Returned a, w).

#[global] Instance Go_bind : MBind Go := fun A B f m w =>
  match m w with
  | (Returned a, w') => f a w'
  | (Panicked, w') => (Panicked, w')
  | (Exited status, w') => (Exited status, w')
  end.

Definition panic {A} : Go A := fun w => (Panicked, w).

(** [log.Fatal]: logs and calls [os.Exit(1)]. *)
Definition Fatal {A} : Go A := fun w => (Exited 1, w).

Definition deref (h : gmap loc (gmap string string)) (m : mapref)
  : option (gmap string string) :=
  match m with
  | None => None
  | Some l => Some (h !!! l)
  end.

(** The entries a [range] over the map visits. *)
Definition mapRange (m : mapref) : Go (list (string * string)) := fun w =>
  (Returned (match deref (store w) m with
             | None => []
             | Some entries => map_to_list entries
             end), w).

(** [m[k] = v]. *)
Definition mapAssign (m : mapref) (k v : string) : Go unit := fun w =>
  match m with
  | None => (Panicked, w)
  | Some l =>
      (Returned tt,
       mkWorld (<[l := <[k := v]> (store w !!! l)]> (store w)) (calls w))
  end.

Definition wireOf (w : World) (s : Secret) : Wire :=
  mkWire s (deref (store w) (Labels s)) (deref (store w) (Annotations s)).

Definition snapshot (s : Secret) : Go Wire := fun w => (Returned (wireOf w s), w).

Definition request {A} (c : Call) (answer : list Call -> A) : Go A := fun w =>
  (Returned (answer (calls w)), mkWorld (store w) (calls w ++ [c])).

(** ** Functions the three programs share verbatim *)

Section Shared.
Context (env : Env).

(** [getSecretFiles]: the regular files of [dir]; an unreadable directory
    is logged and yields [nil]. *)
Definition getSecretFiles (dir : string) : list string :=
  match ReadDir env dir with
  | inr _ => []
  | inl files =>
      (fix loop (files : list DirEntry) (secretFiles : list string) :=
         match files with
         | [] => secretFiles
         | file :: files' =>
             if negb (entryIsDir file)
             then loop files' (secretFiles ++ [pathJoin env dir (entryName file)])
             else loop files' secretFiles
         end) files []
  end.

(** [getSecrets]: one List request for the namespace. *)
Definition getSecrets (ns : string) : Go (list Secret + error) :=
  sl ← request (CallList ns) (fun past => onList (cluster env) past ns);
  match sl with
  | inr jerr => mret (inr jerr)
  | inl items => mret (inl ([] ++ items))
  end.

(** The directory named by [SECRETS_DIR], else by the first argument. *)
Definition secretDirOf : string :=
  if String.eqb (envSECRETS_DIR env) EmptyString && Nat.ltb 1 (List.length (osArgs env))
  then nth 1 (osArgs env) EmptyString
  else envSECRETS_DIR env.

(** The test of the parser on a decoded object's kind. *)
Definition isSecretGVK (gvk : string * string * string) : bool :=
  bool_decide (gvk = (EmptyString, "v1", "Secret")).

(** The parser's loop over the documents of a file.  [prepare] is what a
    program does to a document before decoding it; [None] stands for its
    [continue].  A decoded object of the Secret kind is collected, another
    kind is dropped. *)
Fixpoint decodeDocs (prepare : string -> option string) (docs : list string)
         (secrets : list Secret) : list Secret + error :=
  match docs with
  | [] => inl secrets
  | doc :: docs' =>
      match prepare doc with
      | None => decodeDocs prepare docs' secrets
      | Some doc =>
          match Decode env doc with
          | inr err => inr err
          | inl object =>
              if isSecretGVK (objGVK object)
              then match objSecret object with
                   | None => inr "unexpected object type"
                   | Some s => decodeDocs prepare docs' (secrets ++ [s])
                   end
              else decodeDocs prepare docs' secrets
          end
      end
  end.

(** The loop of [main] over the namespaces: a failed List is fatal. *)
Fixpoint listNamespaces (nsc : list string) (allSecrets : list Secret)
  : Go (list Secret) :=
  match nsc with
  | [] => mret allSecrets
  | ns :: nsc' =>
      r ← getSecrets ns;
      match r with
      | inr _ => Fatal
      | inl s => listNamespaces nsc' (allSecrets ++ s)
      end
  end.
End Shared.

(** [secretNamespaces]: the inner loop looks the namespace up among those
    collected so far, the outer loop appends it when it is new. *)
Fixpoint seenNamespace (namespaces : list string) (ns : string) : bool :=
  match namespaces with
  | [] => false
  | n :: namespaces' => if String.eqb ns n then true else seenNamespace namespaces' ns
  end.

Fixpoint secretsLoop (secrets : list Secret) (namespaces : list string) : list string :=
  match secrets with
  | [] => namespaces
  | secret :: secrets' =>
      if seenNamespace namespaces (Namespace secret)
      then secretsLoop secrets' namespaces
      else secretsLoop secrets' (namespaces ++ [Namespace secret])
  end.

Definition secretNamespaces (secrets : list Secret) : list string :=
  secretsLoop secrets [].

(** The merge helper, under its three names [mergeMapStringString]
    ([src/main.go]), [mergeAnnotations] and [mergeLabels] (the other two
    programs): every entry of the second map is written into the first map,
    and the first map is returned.  A [range] over a map that is being
    written visits the entries present when it started, as long as no key is
    added; the only aliased use (a map merged with itself) adds none. *)
Fixpoint assignAll (m : mapref) (entries : list (string * string)) : Go unit :=
  match entries with
  | [] => mret tt
  | (k, v) :: entries' => mapAssign m k v;; assignAll m entries'
  end.

Definition mergeMaps (annotations annotationsToMerge : mapref) : Go mapref :=
  entries ← mapRange annotationsToMerge;
  assignAll annotations entries;;
  mret annotations.

(** The match test of the reconcilers: same name and same namespace. *)
Definition sameKey (a b : Secret) : bool :=
  String.eqb (Name a) (Name b) && String.eqb (Namespace a) (Namespace b).

(** ** [src/main.go] *)

Module Main.
Section Program.
Context (env : Env).

(** [removeComments]: drops the lines that start with [#]. *)
Fixpoint keepLines (lines result : list string) : list string :=
  match lines with
  | [] => result
  | line :: lines' =>
      if HasPrefix line "#"
      then keepLines lines' result
      else keepLines lines' (result ++ [line])
  end.

Definition removeComments (doc : string) : string :=
  Join (keepLines (Split doc LF) []) LF.

Definition prepareDoc (doc : string) : option string :=
  if isBlank doc then None
  else let doc := removeComments doc in
       if isBlank doc then None else Some doc.

Fixpoint parseFiles (files : list string) (secrets : list Secret)
  : list Secret + error :=
  match files with
  | [] => inl secrets
  | file :: files' =>
      match ReadFile env file with
      | inr ferr => inr ferr
      | inl fd =>
          match decodeDocs env prepareDoc (Split fd "---") secrets with
          | inr err => inr err
          | inl secrets' => parseFiles files' secrets'
          end
      end
  end.

Definition parseFilesAsSecrets (files : list string) : list Secret + error :=
  parseFiles files [].

Definition mergeMapStringString : mapref -> mapref -> Go mapref := mergeMaps.

(** The inner loop of [updateSecretData] for the template [ns] at index
    [i]: the first live secret with the template's key replaces it, with
    the merged maps. *)
Fixpoint existingLoop (i : nat) (ns : Secret) (existingSecrets newSecrets : list Secret)
  : Go (list Secret) :=
  match existingSecrets with
  | [] => mret newSecrets
  | es :: existingSecrets' =>
      if sameKey ns es
      then
        a ← mergeMapStringString (Annotations es) (Annotations ns);
        lb ← mergeMapStringString (Labels es) (Labels ns);
        mret (<[i := setLabels (setAnnotations es a) lb]> newSecrets)
      else existingLoop i ns existingSecrets' newSecrets
  end.

Fixpoint newLoop (indices : list nat) (existingSecrets newSecrets : list Secret)
  : Go (list Secret) :=
  match indices with
  | [] => mret newSecrets
  | i :: indices' =>
      match newSecrets !! i with
      | None => panic
      | Some ns =>
          newSecrets' ← existingLoop i ns existingSecrets newSecrets;
          newLoop indices' existingSecrets newSecrets'
      end
  end.

Definition updateSecretData (newSecrets existingSecrets : list Secret)
  : Go (list Secret * option error) :=
  newSecrets' ← newLoop (seq 0 (List.length newSecrets)) existingSecrets newSecrets;
  mret (newSecrets', None).

Definition clearIdentity (secret : Secret) : Secret :=
  mkSecret (Namespace secret) (Name secret) (Labels secret) (Annotations secret)
           (Data secret) EmptyString EmptyString None.

(** [deleteRecreateSecret] writes through its pointer argument; the
    secret as it is left is returned next to the error. *)
Definition deleteRecreateSecret (secret : Secret) : Go (Secret * option error) :=
  let secret := clearIdentity secret in
  err ← request (CallGet (Namespace secret) (Name secret))
          (fun past => onGet (cluster env) past (Namespace secret) (Name secret));
  match err with
  | Some e => mret (secret, Some e)
  | None =>
      derr ← request (CallDelete (Namespace secret) (Name secret))
               (fun past => onDelete (cluster env) past (Namespace secret) (Name secret));
      match derr with
      | Some e => mret (secret, Some e)
      | None =>
          w ← snapshot secret;
          err ← request (CallCreate (Namespace secret) w)
                  (fun past => onCreate (cluster env) past (Namespace secret) w);
          match err with
          | Some e => mret (secret, Some e)
          | None => mret (secret, None)
          end
      end
  end.

Definition ensureCreateSecret (secret : Secret) : Go (Secret * option error) :=
  if negb (String.eqb (UID secret) EmptyString)
  then
    w ← snapshot secret;
    err ← request (CallUpdate (Namespace secret) w)
            (fun past => onUpdate (cluster env) past (Namespace secret) w);
    match err with
    | Some _ => deleteRecreateSecret secret
    | None => mret (secret, None)
    end
  else
    w ← snapshot secret;
    err ← request (CallCreate (Namespace secret) w)
            (fun past => onCreate (cluster env) past (Namespace secret) w);
    match err with
    | Some _ => deleteRecreateSecret secret
    | None => mret (secret, None)
    end.

Fixpoint updateK8sSecrets (secrets : list Secret) : Go (option error) :=
  match secrets with
  | [] => mret None
  | secret :: secrets' =>
      '(_, err) ← ensureCreateSecret secret;
      match err with
      | Some e => mret (Some e)
      | None => updateK8sSecrets secrets'
      end
  end.

Definition main : Go unit :=
  let secretFiles := getSecretFiles env (secretDirOf env) in
  match parseFilesAsSecrets secretFiles with
  | inr _ => Fatal
  | inl sec =>
      let nsc := secretNamespaces sec in
      allSecrets ← listNamespaces env nsc [];
      '(us, uerr) ← updateSecretData sec allSecrets;
      match uerr with
      | Some _ => Fatal
      | None =>
          uerr ← updateK8sSecrets us;
          match uerr with
          | Some _ => Fatal
          | None => mret tt
          end
      end
  end.
End Program.
End Main.

(** ** [src/unnamed/part_000]: the metadata-only maintenance mode *)

Module Metadata.
Section Program.
Context (env : Env).

(** [removeComments]: drops the lines whose trimmed form starts with [#]. *)
Fixpoint keepLines (lines result : list string) : list string :=
  match lines with
  | [] => result
  | line :: lines' =>
      let trimmed := TrimSpace line in
      if negb (HasPrefix trimmed "#")
      then keepLines lines' (result ++ [line])
      else keepLines lines' result
  end.

Definition removeComments (content : string) : string :=
  Join (keepLines (Split content LF) []) LF.

Definition prepareDoc (doc : string) : option string :=
  if isBlank doc then None else Some doc.

Fixpoint parseFiles (files : list string) (secrets : list Secret)
  : list Secret + error :=
  match files with
  | [] => inl secrets
  | file :: files' =>
      match ReadFile env file with
      | inr ferr => inr ferr
      | inl fd =>
          let content := removeComments fd in
          match decodeDocs env prepareDoc (Split content "---") secrets with
          | inr err => inr err
          | inl secrets' => parseFiles files' secrets'
          end
      end
  end.

Definition parseFilesAsSecrets (files : list string) : list Secret + error :=
  parseFiles files [].

Definition mergeAnnotations : mapref -> mapref -> Go mapref := mergeMaps.
Definition mergeLabels : mapref -> mapref -> Go mapref := mergeMaps.

(** The inner loop of [updateSecretMetadata]: the template keeps its place
    and its other fields, and receives the merged maps. *)
Fixpoint existingLoop (i : nat) (ls : Secret) (existingSecrets newSecrets : list Secret)
  : Go (list Secret) :=
  match existingSecrets with
  | [] => mret newSecrets
  | rs :: existingSecrets' =>
      if sameKey ls rs
      then
        a ← mergeAnnotations (Annotations rs) (Annotations ls);
        lb ← mergeLabels (Labels rs) (Labels ls);
        mret (<[i := setLabels (setAnnotations ls a) lb]> newSecrets)
      else existingLoop i ls existingSecrets' newSecrets
  end.

Fixpoint newLoop (indices : list nat) (existingSecrets newSecrets : list Secret)
  : Go (list Secret) :=
  match indices with
  | [] => mret newSecrets
  | i :: indices' =>
      match newSecrets !! i with
      | None => panic
      | Some ls =>
          newSecrets' ← existingLoop i ls existingSecrets newSecrets;
          newLoop indices' existingSecrets newSecrets'
      end
  end.

Definition updateSecretMetadata (newSecrets existingSecrets : list Secret)
  : Go (list Secret * option error) :=
  newSecrets' ← newLoop (seq 0 (List.length newSecrets)) existingSecrets newSecrets;
  mret (newSecrets', None).

(** [json.Marshal] of a [map[string]string]: [null] for a [nil] map. *)
Definition jsonOfMap (m : option (gmap string string)) : Json :=
  match m with
  | None => JNull
  | Some entries => JStringMap entries
  end.

(** The patch document; [json.Marshal] writes the keys of a map in sorted
    order and cannot fail on these values. *)
Definition patchData (w : Wire) : Json :=
  JObject [("metadata",
            JObject [("annotations", jsonOfMap (wAnnotations w));
                     ("labels", jsonOfMap (wLabels w))])].

Definition patchSecretMetadata (secret : Secret) : Go (option error) :=
  w ← snapshot secret;
  let jd := patchData w in
  err ← request (CallPatch (Namespace secret) (Name secret) jd)
          (fun past => onPatch (cluster env) past (Namespace secret) (Name secret) jd);
  match err with
  | Some e => if Contains e "not found" then mret None else mret (Some e)
  | None => mret None
  end.

Fixpoint updateK8sSecretsMetadata (secrets : list Secret) : Go (option error) :=
  match secrets with
  | [] => mret None
  | secret :: secrets' =>
      err ← patchSecretMetadata secret;
      match err with
      | Some e => mret (Some e)
      | None => updateK8sSecretsMetadata secrets'
      end
  end.

Definition main : Go unit :=
  let secretFiles := getSecretFiles env (secretDirOf env) in
  match parseFilesAsSecrets secretFiles with
  | inr _ => Fatal
  | inl sec =>
      let nsc := secretNamespaces sec in
      allSecrets ← listNamespaces env nsc [];
      '(us, uerr) ← updateSecretMetadata sec allSecrets;
      match uerr with
      | Some _ => Fatal
      | None =>
          uerr ← updateK8sSecretsMetadata us;
          match uerr with
          | Some _ => Fatal
          | None => mret tt
          end
      end
  end.
End Program.
End Metadata.

(** ** [src/unnamed/part_001]: the earlier reconciler *)

Module Legacy.
Section Program.
Context (env : Env).

Definition prepareDoc (doc : string) : option string :=
  if isBlank doc then None else Some doc.

Fixpoint parseFiles (files : list string) (secrets : list Secret)
  : list Secret + error :=
  match files with
  | [] => inl secrets
  | file :: files' =>
      match ReadFile env file with
      | inr ferr => inr ferr
      | inl fd =>
          match decodeDocs env prepareDoc (Split fd "---") secrets with
          | inr err => inr err
          | inl secrets' => parseFiles files' secrets'
          end
      end
  end.

Definition parseFilesAsSecrets (files : list string) : list Secret + error :=
  parseFiles files [].

Definition mergeAnnotations : mapref -> mapref -> Go mapref := mergeMaps.

(** The inner loop of [updateSecretData].  Here [ls] and [newSecrets[i]]
    are the same template, so each merge is of a map of the template with
    itself; the live secret [rs] then replaces the template and receives
    the results. *)
Fixpoint existingLoop (i : nat) (ls : Secret) (existingSecrets newSecrets : list Secret)
  : Go (list Secret) :=
  match existingSecrets with
  | [] => mret newSecrets
  | rs :: existingSecrets' =>
      if sameKey ls rs
      then
        a ← mergeAnnotations (Annotations ls) (Annotations ls);
        lb ← mergeAnnotations (Labels ls) (Labels ls);
        mret (<[i := setLabels (setAnnotations rs a) lb]> newSecrets)
      else existingLoop i ls existingSecrets' newSecrets
  end.

Fixpoint newLoop (indices : list nat) (existingSecrets newSecrets : list Secret)
  : Go (list Secret) :=
  match indices with
  | [] => mret newSecrets
  | i :: indices' =>
      match newSecrets !! i with
      | None => panic
      | Some ls =>
          newSecrets' ← existingLoop i ls existingSecrets newSecrets;
          newLoop indices' existingSecrets newSecrets'
      end
  end.

Definition updateSecretData (newSecrets existingSecrets : list Secret)
  : Go (list Secret * option error) :=
  newSecrets' ← newLoop (seq 0 (List.length newSecrets)) existingSecrets newSecrets;
  mret (newSecrets', None).

Fixpoint updateK8sSecrets (secrets : list Secret) : Go (option error) :=
  match secrets with
  | [] => mret None
  | secret :: secrets' =>
      w ← snapshot secret;
      if negb (String.eqb (UID secret) EmptyString)
      then
        err ← request (CallUpdate (Namespace secret) w)
                (fun past => onUpdate (cluster env) past (Namespace secret) w);
        match err with
        | Some e => mret (Some e)
        | None => updateK8sSecrets secrets'
        end
      else
        err ← request (CallCreate (Namespace secret) w)
                (fun past => onCreate (cluster env) past (Namespace secret) w);
        match err with
        | Some e => mret (Some e)
        | None => updateK8sSecrets secrets'
        end
  end.

Definition main : Go unit :=
  let secretFiles := getSecretFiles env (secretDirOf env) in
  match parseFilesAsSecrets secretFiles with
  | inr _ => Fatal
  | inl sec =>
      let nsc := secretNamespaces sec in
      allSecrets ← listNamespaces env nsc [];
      '(us, uerr) ← updateSecretData sec allSecrets;
      match uerr with
      | Some _ => Fatal
      | None =>
          uerr ← updateK8sSecrets us;
          match uerr with
          | Some _ => Fatal
          | None => mret tt
          end
      end
  end.
End Program.
End Legacy.

(** ** Vocabulary of the statements *)

(** The first live secret with the key of [t], as the reconcilers' inner
    loops find it. *)
Fixpoint firstMatch (t : Secret) (existingSecrets : list Secret) : option Secret :=
  match existingSecrets with
  | [] => None
  | es :: existingSecrets' =>
      if sameKey t es then Some es else firstMatch t existingSecrets'
  end.

(** The distinct elements of a list in the order of their first occurrence:
    what the namespace indexer is specified to return. *)
Fixpoint firstSeen (l : list string) : list string :=
  match l with
  | [] => []
  | x :: l' => x :: filter (fun y => y ≠ x) (firstSeen l')
  end.

(** A template that targets the given namespace and nothing else. *)
Definition templateIn (ns : string) : Secret :=
  mkSecret ns EmptyString None None ∅ EmptyString EmptyString None.

(** What a reader of the map [m] sees in the world [w]; a [nil] map reads as
    empty. *)
Definition contents (w : World) (m : mapref) : gmap string string :=
  default ∅ (deref (store w) m).

(** The effect of a run of assignments on the map they are made to. *)
Definition insertAll (entries : list (string * string)) (m : gmap string string)
  : gmap string string :=
  foldl (fun acc kv => <[kv.1 := kv.2]> acc) m entries.

(** ** A running example

    The scenario of the specification: a template of secret [a/s1] with the
    label [x=1], and the live secret [a/s1] with the labels [x=0], [y=2], the
    data [k=v], the identity [u1] and no annotations.  The live labels are
    the map object 1, the template's labels the map object 2. *)
Definition exampleStore : gmap loc (gmap string string) :=
  {[ 1%positive := {[ "x" := "0"; "y" := "2" ]};
     2%positive := {[ "x" := "1" ]} ]}.

Definition exampleWorld : World := mkWorld exampleStore [].

Definition exampleData : gmap string (list Byte.byte) := {[ "k" := [Byte.x76] ]}.

Definition exampleTemplate : Secret :=
  mkSecret "a" "s1" (Some 2%positive) None ∅ EmptyString EmptyString None.

Definition exampleLive : Secret :=
  mkSecret "a" "s1" (Some 1%positive) None exampleData "u1" "42" (Some 1700000000%Z).

(** The same template declaring its map as annotations instead of labels. *)
Definition annotatedTemplate : Secret :=
  mkSecret "a" "s1" None (Some 2%positive) ∅ EmptyString EmptyString None.

(** The running example after the template's labels were merged into the
    live labels. *)
Definition exampleMerged : World :=
  mkWorld (<[ 1%positive := {[ "x" := "1"; "y" := "2" ]} ]> exampleStore) [].

(** A cluster that rejects every Update and every Delete and accepts
    everything else, and a process environment around it whose template
    directory cannot be read. *)
Definition refusingCluster : Cluster :=
  mkCluster (fun _ _ => inl [])
            (fun _ _ _ => None)
            (fun _ _ _ => None)
            (fun _ _ _ => Some "update rejected")
            (fun _ _ _ => Some "delete forbidden")
            (fun _ _ _ _ => None).

Definition exampleEnv : Env :=
  mkEnv EmptyString ["k8s-secret-template"; "/missing"]
        (fun _ => inr "open /missing: no such file or directory")
        (fun _ => inr "no such file")
        (fun dir name => dir +:+ "/" +:+ name)
        (fun _ => inr "no kind registered")
        refusingCluster.

(** A template with no live counterpart, as in the specification's second
    scenario. *)
Definition exampleUnmatched : Secret :=
  mkSecret "b" "s2" None None ∅ EmptyString EmptyString None.

(** The map objects a secret refers to, and those of a list of secrets. *)
Definition mapsOf (s : Secret) : list loc :=
  option_list (Labels s) ++ option_list (Annotations s).

Definition liveMaps (existingSecrets : list Secret) : list loc :=
  existingSecrets ≫= mapsOf.

(** ** Input errors

    A document that reaches the decoder is in error when it does not decode,
    or decodes to the Secret kind but not to a secret object.  A file is in
    error when it cannot be read or holds such a document; [docsOf] and
    [prepare] are how the program at hand cuts a file into documents and
    which of them it hands to the decoder. *)
Definition badDocument (env : Env) (doc : string) : Prop :=
  (∃ e, Decode env doc = inr e)
  ∨ (∃ object, Decode env doc = inl object
               ∧ isSecretGVK (objGVK object) = true ∧ objSecret object = None).

Definition badFile (env : Env) (docsOf : string -> list string)
           (prepare : string -> option string) (file : string) : Prop :=
  (∃ e, ReadFile env file = inr e)
  ∨ (∃ fd doc doc', ReadFile env file = inl fd ∧ doc ∈ docsOf fd
                    ∧ prepare doc = Some doc' ∧ badDocument env doc').

(** An environment whose template directory holds one file with one
    document, which does not decode. *)
Definition brokenFileEnv : Env :=
  mkEnv "/templates" ["k8s-secret-template"]
        (fun _ => inl [mkDirEntry "secret.yaml" false])
        (fun _ => inl "kind: Secret")
        (fun dir name => dir +:+ "/" +:+ name)
        (fun _ => inr "couldn't get version/kind; json parse error")
        refusingCluster.

(** ** Requests of a run *)

(** Whatever its outcome, the run [m] adds to the requests made so far only
    requests that satisfy [P]. *)
Definition sendsOnly {A} (P : Call -> Prop) (m : Go A) : Prop :=
  ∀ w, ∃ sent, calls (m w).2 = calls w ++ sent ∧ Forall P sent.

Definition memberNames (j : Json) : list string :=
  match j with
  | JObject members => members.*1
  | _ => []
  end.

(** A patch document with the single member [metadata], which has the two
    members [annotations] and [labels], each a map of strings or [null]. *)
Definition metadataOnly (payload : Json) : Prop :=
  ∃ annotations labels,
    payload = JObject [("metadata",
                        JObject [("annotations", annotations); ("labels", labels)])]
    ∧ (annotations = JNull ∨ ∃ m, annotations = JStringMap m)
    ∧ (labels = JNull ∨ ∃ m, labels = JStringMap m).

(** The requests of the maintenance mode: List, and Patch of metadata. *)
Definition maintenanceCall (c : Call) : Prop :=
  match c with
  | CallList _ => True
  | CallPatch _ _ payload => metadataOnly payload
  | _ => False
  end.

(** An environment whose cluster answers every Patch with a not-found
    error. *)
Definition absentEnv : Env :=
  mkEnv "/templates" ["k8s-secret-template"]
        (fun _ => inl [])
        (fun _ => inr "no such file")
        (fun dir name => dir +:+ "/" +:+ name)
        (fun _ => inr "no kind registered")
        (mkCluster (fun _ _ => inl [])
                   (fun _ _ _ => None) (fun _ _ _ => None)
                   (fun _ _ _ => None) (fun _ _ _ => None)
                   (fun _ _ name _ => Some ("secrets " +:+ name +:+ " not found"))).

(** ** Comment lines *)

(** A line that begins with the comment marker once its leading white space
    is trimmed, that is, whose first character that is not white space is
    the marker. *)
Definition commentLine (line : string) : Prop :=
  HasPrefix (TrimLeftSpace line) "#" = true.

(** A document with an indented comment line, a comment line and a line
    with a trailing comment. *)
Definition exampleDoc : string :=
  "kind: Secret" +:+ LF +:+ "  # filled in by the operator" +:+ LF
  +:+ "# template" +:+ LF +:+ "name: s1 # keep".

(** ** An end-to-end scenario

    One template file with two documents, the template of [a/s1] and the
    template of [b/s2]; the cluster holds [a/s1] in namespace [a] and
    nothing in namespace [b], and accepts every request. *)
Definition scenarioEnv : Env :=
  mkEnv "/templates" ["k8s-secret-template"]
        (fun _ => inl [mkDirEntry "charts" true; mkDirEntry "secrets.yaml" false])
        (fun _ => inl ("name: s1" +:+ LF +:+ "---" +:+ LF +:+ "name: s2" +:+ LF))
        (fun dir name => dir +:+ "/" +:+ name)
        (fun doc =>
           if Contains doc "s1"
           then inl (mkObject (EmptyString, "v1", "Secret") (Some exampleTemplate))
           else inl (mkObject (EmptyString, "v1", "Secret") (Some exampleUnmatched)))
        (mkCluster (fun _ ns => if String.eqb ns "a" then inl [exampleLive] else inl [])
                   (fun _ _ _ => None) (fun _ _ _ => None)
                   (fun _ _ _ => None) (fun _ _ _ => None)
                   (fun _ _ _ _ => None)).

(** ** Vocabulary of the further properties *)

(** The secrets a document and a file contribute to a successful parse. *)
Definition docSecrets (env : Env) (prepare : string -> option string) (doc : string)
  : list Secret :=
  match prepare doc with
  | None => []
  | Some doc' =>
      match Decode env doc' with
      | inl object =>
          if isSecretGVK (objGVK object) then option_list (objSecret object) else []
      | inr _ => []
      end
  end.

Definition fileSecrets (env : Env) (docsOf : string -> list string)
           (prepare : string -> option string) (file : string) : list Secret :=
  match ReadFile env file with
  | inl fd => docsOf fd ≫= docSecrets env prepare
  | inr _ => []
  end.

(** The requests of the appliers of [src/main.go] and [src/unnamed/part_001]:
    the first request for a secret, chosen by its UID, and the three requests
    of the delete-and-recreate procedure. *)
Definition firstRequest (w : World) (secret : Secret) : Call :=
  if String.eqb (UID secret) EmptyString
  then CallCreate (Namespace secret) (wireOf w secret)
  else CallUpdate (Namespace secret) (wireOf w secret).

Definition recreateRequests (w : World) (secret : Secret) : list Call :=
  [CallGet (Namespace secret) (Name secret);
   CallDelete (Namespace secret) (Name secret);
   CallCreate (Namespace secret) (wireOf w (Main.clearIdentity secret))].

Definition patchRequest (w : World) (secret : Secret) : Call :=
  CallPatch (Namespace secret) (Name secret) (Metadata.patchData (wireOf w secret)).

(** Requests that read or write one secret: everything but List and Patch. *)
Definition applyCall (c : Call) : Prop :=
  match c with
  | CallGet _ _ | CallCreate _ _ | CallUpdate _ _ | CallDelete _ _ => True
  | CallList _ | CallPatch _ _ _ => False
  end.

(** What the cluster answered to the first request for a secret. *)
Definition firstAnswer (env : Env) (w : World) (secret : Secret) : option error :=
  if String.eqb (UID secret) EmptyString
  then onCreate (cluster env) (calls w) (Namespace secret) (wireOf w secret)
  else onUpdate (cluster env) (calls w) (Namespace secret) (wireOf w secret).

(** A Patch request. *)
Definition patchCall (c : Call) : Prop :=
  match c with
  | CallPatch _ _ _ => True
  | _ => False
  end.

(** Whatever its outcome, the run [m] first lists an initial part of the
    namespaces [nsc], one List each and in order, and then sends only
    requests that satisfy [Q]. *)
Definition listsThen {A} (Q : Call -> Prop) (nsc : list string) (m : Go A) : Prop :=
  ∀ w, ∃ k writes,
    calls (m w).2 = calls w ++ map CallList (take k nsc) ++ writes ∧ Forall Q writes.

(** Two runs end in the same world and in the same way: both return, both
    panic, or both exit with the same status. *)
Definition sameEffect {A B} (r1 : Outcome A * World) (r2 : Outcome B * World) : Prop :=
  r1.2 = r2.2
  ∧ match r1.1, r2.1 with
    | Returned _, Returned _ => True
    | Panicked, Panicked => True
    | Exited status1, Exited status2 => status1 = status2
    | _, _ => False
    end.

(** A run that ends in order: it returns, or exits with status 1. *)
Definition endsInOrder {A} (o : Outcome A) : Prop :=
  match o with
  | Returned _ => True
  | Exited status => status = 1%Z
  | Panicked => False
  end.

(** The scenario with a live secret that has both its maps; its annotation
    map, the map object 3, is empty. *)
Definition annotatedLive : Secret :=
  mkSecret "a" "s1" (Some 1%positive) (Some 3%positive) exampleData "u1" "42"
           (Some 1700000000%Z).

Definition tidyEnv : Env :=
  mkEnv (envSECRETS_DIR scenarioEnv) (osArgs scenarioEnv) (ReadDir scenarioEnv)
        (ReadFile scenarioEnv) (pathJoin scenarioEnv) (Decode scenarioEnv)
        (mkCluster (fun _ ns => if String.eqb ns "a" then inl [annotatedLive] else inl [])
                   (fun _ _ _ => None) (fun _ _ _ => None)
                   (fun _ _ _ => None) (fun _ _ _ => None)
                   (fun _ _ _ _ => None)).

(** * Properties *)

(** ** The namespace indexer *)

Lemma filter_all {A} (P : A → Prop) `{!∀ x, Decision (P x)} (l : list A) :
  Forall P l → filter P l = l.
Proof.
  induction 1 as [|x l Hx _ IH]; [reflexivity|].
  rewrite filter_cons_True, IH by assumption. reflexivity.
Qed.

Lemma seenNamespace_elem (namespaces : list string) (ns : string) :
  seenNamespace namespaces ns = true ↔ ns ∈ namespaces.
Proof.
  induction namespaces as [|n namespaces IH]; simpl.
  - split; [discriminate | intros H; inversion H].
  - destruct (String.eqb_spec ns n) as [->|Hne].
    + split; [intros _; left | reflexivity].
    + rewrite IH. split; [right; assumption |].
      intros H. apply elem_of_cons in H as [H|H]; [contradiction | assumption].
Qed.

Lemma secretsLoop_firstSeen (secrets : list Secret) (namespaces : list string) :
  secretsLoop secrets namespaces =
  namespaces ++ filter (fun n => n ∉ namespaces) (firstSeen (map Namespace secrets)).
Proof.
  revert namespaces.
  induction secrets as [|secret secrets IH]; intros namespaces; simpl.
  - rewrite filter_nil, app_nil_r. reflexivity.
  - destruct (seenNamespace namespaces (Namespace secret)) eqn:Hseen.
    + apply seenNamespace_elem in Hseen.
      rewrite IH, filter_cons_False by (intros H; apply H, Hseen).
      rewrite list_filter_filter. f_equal.
      apply list_filter_iff. intros n. split; [|tauto].
      intros Hn. split; [assumption|]. intros ->. contradiction.
    + assert (Namespace secret ∉ namespaces) as Hnew.
      { rewrite <- seenNamespace_elem, Hseen. discriminate. }
      rewrite IH, filter_cons_True by assumption.
      rewrite <- app_assoc. simpl. do 2 f_equal.
      rewrite list_filter_filter. apply list_filter_iff. intros n.
      rewrite elem_of_app, list_elem_of_singleton. tauto.
Qed.

Lemma firstSeen_elem (l : list string) (x : string) : x ∈ firstSeen l ↔ x ∈ l.
Proof.
  induction l as [|y l IH]; simpl; [reflexivity|].
  rewrite !elem_of_cons, list_elem_of_filter, IH.
  destruct (decide (x = y)); tauto.
Qed.

Lemma firstSeen_NoDup (l : list string) : NoDup (firstSeen l).
Proof.
  induction l as [|x l IH]; simpl; [constructor|].
  constructor.
  - rewrite list_elem_of_filter. tauto.
  - apply NoDup_filter, IH.
Qed.

Lemma firstSeen_fixed (l : list string) : NoDup l → firstSeen l = l.
Proof.
  induction 1 as [|x l Hx Hl IH]; simpl; [reflexivity|].
  rewrite IH. f_equal.
  apply filter_all, Forall_forall. intros y Hy ->. contradiction.
Qed.

Lemma secretNamespaces_firstSeen (secrets : list Secret) :
  secretNamespaces secrets = firstSeen (map Namespace secrets).
Proof.
  unfold secretNamespaces. rewrite secretsLoop_firstSeen. simpl.
  apply filter_all, Forall_forall. intros n _ H. inversion H.
Qed.

(** C10. The namespace indexer returns the distinct namespaces of the
    templates in the order in which they are first seen (it is the
    first-occurrence deduplication of their namespace sequence, nothing is
    sorted, nothing is invented), without duplicates; its result depends on
    the namespace sequence only, so indexing the same sequence twice gives
    the same result; and indexing templates built from its own output gives
    that output back. *)
Theorem secretNamespaces_first_seen_idempotent (secrets : list Secret) :
  secretNamespaces secrets = firstSeen (map Namespace secrets)
  ∧ NoDup (secretNamespaces secrets)
  ∧ (∀ n, n ∈ secretNamespaces secrets ↔ ∃ s, s ∈ secrets ∧ Namespace s = n)
  ∧ (∀ secrets', map Namespace secrets' = map Namespace secrets →
       secretNamespaces secrets' = secretNamespaces secrets)
  ∧ secretNamespaces (map templateIn (secretNamespaces secrets))
    = secretNamespaces secrets.
Proof.
  rewrite !secretNamespaces_firstSeen.
  split; [reflexivity|]. split; [apply firstSeen_NoDup|]. split; [|split].
  - intros n. rewrite firstSeen_elem, list_elem_of_fmap.
    split; intros (s & H1 & H2); exists s; split; congruence.
  - intros secrets' Heq. rewrite secretNamespaces_firstSeen, Heq. reflexivity.
  - rewrite map_map. simpl. rewrite map_id.
    apply firstSeen_fixed, firstSeen_NoDup.
Qed.

Lemma secretNamespaces_first_seen_idempotent_witness :
  secretNamespaces [exampleUnmatched; exampleTemplate; exampleLive] = ["b"; "a"]
  ∧ secretNamespaces [templateIn "b"; templateIn "a"; templateIn "a"]
    = secretNamespaces [exampleUnmatched; exampleTemplate; exampleLive]
  ∧ secretNamespaces (map templateIn ["b"; "a"]) = ["b"; "a"].
Proof.
  destruct (secretNamespaces_first_seen_idempotent
              [exampleUnmatched; exampleTemplate; exampleLive])
    as (Hfirst & _ & _ & Hsame & Hidem).
  split; [exact Hfirst|]. split; [apply Hsame; reflexivity | exact Hidem].
Defined.

(** ** Running programs *)

Lemma run_bind {A B} (m : Go A) (f : A → Go B) (w : World) :
  (m ≫= f) w = match m w with
               | (Returned a, w') => f a w'
               | (Panicked, w') => (Panicked, w')
               | (Exited status, w') => (Exited status, w')
               end.
Proof. reflexivity. Qed.

Lemma run_ret {A} (a : A) (w : World) : (mret a : Go A) w = (Returned a, w).
Proof. reflexivity. Qed.

Lemma bind_returned {A B} (m : Go A) (f : A → Go B) (w w2 : World) (b : B) :
  (m ≫= f) w = (Returned b, w2) →
  ∃ a w1, m w = (Returned a, w1) ∧ f a w1 = (Returned b, w2).
Proof.
  rewrite run_bind. destruct (m w) as [[a| |status] w1]; [eauto | discriminate..].
Qed.

(** ** The merge helper *)

Lemma insertAll_union (entries : list (string * string)) (m : gmap string string) :
  NoDup (entries.*1) → insertAll entries m = list_to_map entries ∪ m.
Proof.
  revert m. induction entries as [|[k v] entries IH]; intros m Hnd.
  - simpl. rewrite (left_id_L ∅ (∪)). reflexivity.
  - rewrite fmap_cons in Hnd. apply NoDup_cons in Hnd as [Hk Hnd].
    change (insertAll ((k, v) :: entries) m) with (insertAll entries (<[k := v]> m)).
    rewrite (IH _ Hnd). simpl.
    rewrite <- insert_union_l. symmetry. apply insert_union_r.
    apply not_elem_of_list_to_map_1, Hk.
Qed.

Lemma insertAll_map_to_list (m2 m : gmap string string) :
  insertAll (map_to_list m2) m = m2 ∪ m.
Proof.
  rewrite insertAll_union by apply NoDup_fst_map_to_list.
  rewrite list_to_map_to_list. reflexivity.
Qed.

Lemma assignAll_nil_map (entries : list (string * string)) (w : World) :
  assignAll None entries w =
  match entries with [] => (Returned tt, w) | _ :: _ => (Panicked, w) end.
Proof. destruct entries as [|[k v] entries]; reflexivity. Qed.

Lemma assignAll_map (l : loc) (entries : list (string * string)) (w : World) :
  entries ≠ [] →
  assignAll (Some l) entries w =
  (Returned tt, mkWorld (<[l := insertAll entries (store w !!! l)]> (store w)) (calls w)).
Proof.
  revert w. induction entries as [|[k v] entries IH]; intros w Hne; [contradiction|].
  destruct entries as [|e entries]; [reflexivity|].
  change (assignAll (Some l) ((k, v) :: e :: entries) w)
    with (assignAll (Some l) (e :: entries)
            (mkWorld (<[l := <[k := v]> (store w !!! l)]> (store w)) (calls w))).
  rewrite IH by discriminate. simpl.
  rewrite lookup_total_insert_eq, insert_insert_eq. reflexivity.
Qed.

(** Merging into a map object never fails: the object receives the entries
    of the other map, which win over its own, and it is the result. *)
Lemma mergeMaps_into_map (l : loc) (b : mapref) (w : World) :
  ∃ w', mergeMaps (Some l) b w = (Returned (Some l), w')
        ∧ calls w' = calls w
        ∧ store w' !!! l = contents w b ∪ (store w !!! l)
        ∧ ∀ l', l' ≠ l → store w' !! l' = store w !! l'.
Proof.
  unfold mergeMaps, mapRange, contents. rewrite run_bind.
  destruct (deref (store w) b) as [entries|] eqn:Hb; simpl.
  - destruct (decide (entries = ∅)) as [->|Hne].
    + rewrite map_to_list_empty. exists w. rewrite (left_id_L ∅ (∪)). auto.
    + rewrite run_bind, assignAll_map by (by rewrite map_to_list_empty_iff).
      eexists. split; [reflexivity|]. cbn [store calls].
      rewrite lookup_total_insert_eq, insertAll_map_to_list.
      split; [reflexivity|]. split; [reflexivity|].
      intros l' Hl'. apply lookup_insert_ne. congruence.
  - exists w. rewrite (left_id_L ∅ (∪)). auto.
Qed.

(** Merging into a [nil] map succeeds only when there is nothing to merge. *)
Lemma mergeMaps_into_nil (b : mapref) (w : World) :
  mergeMaps None b w =
  if decide (contents w b = ∅) then (Returned None, w) else (Panicked, w).
Proof.
  unfold mergeMaps, mapRange, contents. rewrite run_bind.
  destruct (deref (store w) b) as [entries|]; simpl.
  - rewrite run_bind, assignAll_nil_map.
    destruct (map_to_list entries) as [|e es] eqn:Hes.
    + apply map_to_list_empty_iff in Hes as ->. reflexivity.
    + rewrite decide_False; [reflexivity|].
      intros ->. rewrite map_to_list_empty in Hes. discriminate.
  - reflexivity.
Qed.

(** What a returning merge has done. *)
Lemma mergeMaps_returned (a b : mapref) (w w' : World) (r : mapref) :
  mergeMaps a b w = (Returned r, w') →
  r = a
  ∧ contents w' a = contents w b ∪ contents w a
  ∧ (∀ l, Some l ≠ a → store w' !! l = store w !! l)
  ∧ calls w' = calls w.
Proof.
  intros Hrun. destruct a as [l|].
  - destruct (mergeMaps_into_map l b w) as (w1 & Hw1 & Hc & Hl & Hframe).
    rewrite Hw1 in Hrun. injection Hrun as <- <-.
    split; [reflexivity|]. split; [exact Hl|]. split; [|exact Hc].
    intros l' Hl'. apply Hframe. congruence.
  - rewrite mergeMaps_into_nil in Hrun. case_decide as Hempty; [|discriminate].
    injection Hrun as <- <-. rewrite Hempty.
    split; [reflexivity|]. split; [|auto].
    unfold contents. simpl. rewrite (left_id_L ∅ (∪)). reflexivity.
Qed.

(** A map merged with itself is left as it is. *)
Lemma mergeMaps_self (m : mapref) (w : World) : mergeMaps m m w = (Returned m, w).
Proof.
  destruct m as [l|].
  - unfold mergeMaps, mapRange. rewrite run_bind. simpl.
    destruct (decide (store w !!! l = (∅ : gmap string string))) as [Hempty|Hne].
    + rewrite Hempty, map_to_list_empty. reflexivity.
    + rewrite run_bind, assignAll_map by (by rewrite map_to_list_empty_iff).
      rewrite insertAll_map_to_list, (idemp_L (∪)).
      rewrite insert_id; [destruct w; reflexivity|].
      rewrite lookup_total_alt in Hne |- *.
      destruct (store w !! l); [reflexivity | contradiction].
  - rewrite mergeMaps_into_nil. apply decide_True. reflexivity.
Qed.

(** C7 (as stated it fails). On the running example the merge helper
    returns its first argument, the live map object 1, and that object now
    holds the merged entries: the live snapshot's map was written in place
    and no new map was made. *)
Lemma mergeMapStringString_writes_live_map :
  ∃ w', Main.mergeMapStringString (Labels exampleLive) (Labels exampleTemplate) exampleWorld
        = (Returned (Labels exampleLive), w')
        ∧ contents exampleWorld (Labels exampleLive) = {[ "x" := "0"; "y" := "2" ]}
        ∧ contents w' (Labels exampleLive) = {[ "x" := "1"; "y" := "2" ]}.
Proof.
  eexists. split; [vm_compute; reflexivity|]. split; vm_compute; reflexivity.
Qed.

(** C7 (amended). Whenever the merge helper returns, its result is its first
    argument itself; that map holds the entries of the second map on top of
    its own; every other map object of the store, in particular the second
    argument when it is another object, is as before; no request is made.
    The helpers [mergeAnnotations] and [mergeLabels] of the other two
    programs are the same function. *)
Theorem mergeMapStringString_in_place
    (annotations annotationsToMerge : mapref) (w w' : World) (r : mapref) :
  Main.mergeMapStringString annotations annotationsToMerge w = (Returned r, w') →
  r = annotations
  ∧ contents w' annotations = contents w annotationsToMerge ∪ contents w annotations
  ∧ (∀ l, Some l ≠ annotations → store w' !! l = store w !! l)
  ∧ calls w' = calls w
  ∧ Metadata.mergeAnnotations = Main.mergeMapStringString
  ∧ Metadata.mergeLabels = Main.mergeMapStringString
  ∧ Legacy.mergeAnnotations = Main.mergeMapStringString.
Proof.
  intros Hrun. apply mergeMaps_returned in Hrun as (Hr & Hc & Hframe & Hcalls).
  repeat split; assumption || reflexivity.
Qed.

Lemma mergeMapStringString_in_place_witness :
  Main.mergeMapStringString (Some 1%positive) (Some 2%positive) exampleWorld
  = (Returned (Some 1%positive), exampleMerged)
  ∧ contents exampleMerged (Some 1%positive)
    = contents exampleWorld (Some 2%positive) ∪ contents exampleWorld (Some 1%positive)
  ∧ store exampleMerged !! 2%positive = store exampleWorld !! 2%positive.
Proof.
  assert (Main.mergeMapStringString (Some 1%positive) (Some 2%positive) exampleWorld
          = (Returned (Some 1%positive), exampleMerged)) as Hrun
    by (vm_compute; reflexivity).
  split; [exact Hrun|].
  destruct (mergeMapStringString_in_place _ _ _ _ _ Hrun) as (_ & Hc & Hframe & _).
  split; [exact Hc|]. apply Hframe. discriminate.
Defined.

(** C8 (the code fails it). A live secret without annotations has a [nil]
    annotation map; merging a template's annotation into it panics, in the
    helper and so in the reconcilers of [src/main.go] and of the maintenance
    mode, which call it on the live map. *)
Theorem merge_into_nil_map_panics :
  contents exampleWorld (Annotations annotatedTemplate) = {[ "x" := "1" ]}
  ∧ Annotations exampleLive = None
  ∧ Main.mergeMapStringString (Annotations exampleLive) (Annotations annotatedTemplate)
      exampleWorld = (Panicked, exampleWorld)
  ∧ Main.updateSecretData [annotatedTemplate] [exampleLive] exampleWorld
    = (Panicked, exampleWorld)
  ∧ Metadata.updateSecretMetadata [annotatedTemplate] [exampleLive] exampleWorld
    = (Panicked, exampleWorld).
Proof.
  split; [vm_compute; reflexivity|]. split; [reflexivity|].
  split; [|split]; vm_compute; reflexivity.
Qed.

(** ** Matching *)

Lemma sameKey_spec (a b : Secret) :
  sameKey a b = true ↔ Name a = Name b ∧ Namespace a = Namespace b.
Proof.
  unfold sameKey. rewrite andb_true_iff, !String.eqb_eq. reflexivity.
Qed.

Lemma firstMatch_None (t : Secret) (existingSecrets : list Secret) :
  firstMatch t existingSecrets = None ↔
  ∀ es, es ∈ existingSecrets → sameKey t es = false.
Proof.
  induction existingSecrets as [|e existingSecrets IH]; simpl.
  - split; [intros _ es H; inversion H | reflexivity].
  - destruct (sameKey t e) eqn:He.
    + split; [discriminate|]. intros H. rewrite H in He by left. discriminate.
    + rewrite IH. split.
      * intros H es [->|Hes]%elem_of_cons; auto.
      * intros H es Hes. apply H. right. exact Hes.
Qed.

Lemma firstMatch_Some (t es : Secret) (existingSecrets : list Secret) :
  firstMatch t existingSecrets = Some es ↔
  ∃ before after, existingSecrets = before ++ es :: after
                  ∧ sameKey t es = true
                  ∧ ∀ e, e ∈ before → sameKey t e = false.
Proof.
  induction existingSecrets as [|e existingSecrets IH]; simpl.
  - split; [discriminate|]. intros (before & after & H & _).
    destruct before; discriminate.
  - destruct (sameKey t e) eqn:He.
    + split.
      * intros [= ->]. exists [], existingSecrets. split; [reflexivity|].
        split; [assumption|]. intros e' H. inversion H.
      * intros ([|b before] & after & Heq & Hes & Hbefore); simpl in Heq.
        -- congruence.
        -- injection Heq as <- _. rewrite Hbefore in He by left. discriminate.
    + rewrite IH. split.
      * intros (before & after & -> & Hes & Hbefore).
        exists (e :: before), after. split; [reflexivity|]. split; [assumption|].
        intros e' [->|H]%elem_of_cons; auto.
      * intros ([|b before] & after & Heq & Hes & Hbefore); simpl in Heq.
        -- injection Heq as -> _. congruence.
        -- injection Heq as <- ->. exists before, after.
           split; [reflexivity|]. split; [assumption|].
           intros e' H. apply Hbefore. right. exact H.
Qed.

Lemma firstMatch_elem (t es : Secret) (existingSecrets : list Secret) :
  firstMatch t existingSecrets = Some es → es ∈ existingSecrets ∧ sameKey t es = true.
Proof.
  intros (before & after & -> & Hkey & _)%firstMatch_Some.
  split; [|assumption]. apply elem_of_app. right. left.
Qed.

(** In a live set where no two secrets have the same namespace and name,
    as the cluster guarantees, any live secret with the template's key is
    the first match. *)
Lemma firstMatch_unique (t es : Secret) (existingSecrets : list Secret) :
  NoDup (map (fun s => (Namespace s, Name s)) existingSecrets) →
  es ∈ existingSecrets → Name es = Name t → Namespace es = Namespace t →
  firstMatch t existingSecrets = Some es.
Proof.
  intros Hnd Hin Hname Hns.
  induction existingSecrets as [|e existingSecrets IH]; [inversion Hin|].
  simpl in Hnd. apply NoDup_cons in Hnd as [Hfresh Hnd]. simpl.
  apply elem_of_cons in Hin as [<-|Hin].
  - assert (sameKey t es = true) as -> by (apply sameKey_spec; split; congruence).
    reflexivity.
  - destruct (sameKey t e) eqn:Hkey; [|apply IH; assumption].
    apply sameKey_spec in Hkey as [Hname' Hns'].
    exfalso. apply Hfresh. apply list_elem_of_fmap. exists es.
    split; [|exact Hin]. congruence.
Qed.

Lemma setMaps_same (es : Secret) :
  setLabels (setAnnotations es (Annotations es)) (Labels es) = es.
Proof. destruct es; reflexivity. Qed.

(** ** The reconciler of [src/main.go] *)

Lemma Main_existingLoop_firstMatch (i : nat) (ns : Secret)
    (existingSecrets newSecrets : list Secret) :
  Main.existingLoop i ns existingSecrets newSecrets =
  match firstMatch ns existingSecrets with
  | None => mret newSecrets
  | Some es =>
      a ← Main.mergeMapStringString (Annotations es) (Annotations ns);
      lb ← Main.mergeMapStringString (Labels es) (Labels ns);
      mret (<[i := setLabels (setAnnotations es a) lb]> newSecrets)
  end.
Proof.
  induction existingSecrets as [|es existingSecrets IH]; simpl; [reflexivity|].
  destruct (sameKey ns es); [reflexivity | exact IH].
Qed.

(** One turn of the outer loop: what is stored at the template's index, and
    which maps were written. *)
Lemma Main_existingLoop_returned (i : nat) (ns : Secret)
    (existingSecrets newSecrets res : list Secret) (w w' : World) :
  Main.existingLoop i ns existingSecrets newSecrets w = (Returned res, w') →
  calls w' = calls w
  ∧ match firstMatch ns existingSecrets with
    | None => res = newSecrets ∧ w' = w
    | Some es =>
        res = <[i := es]> newSecrets
        ∧ ∃ w1, contents w1 (Annotations es)
                = contents w (Annotations ns) ∪ contents w (Annotations es)
              ∧ (∀ l, Some l ≠ Annotations es → store w1 !! l = store w !! l)
              ∧ contents w' (Labels es)
                = contents w1 (Labels ns) ∪ contents w1 (Labels es)
              ∧ (∀ l, Some l ≠ Labels es → store w' !! l = store w1 !! l)
    end.
Proof.
  rewrite Main_existingLoop_firstMatch.
  destruct (firstMatch ns existingSecrets) as [es|].
  - intros (a & w1 & Ha & Hrest)%bind_returned.
    apply bind_returned in Hrest as (lb & w2 & Hlb & Hret).
    apply mergeMaps_returned in Ha as (-> & Hca & Hfa & Hcalls1).
    apply mergeMaps_returned in Hlb as (-> & Hcl & Hfl & Hcalls2).
    rewrite run_ret, setMaps_same in Hret. injection Hret as <- <-.
    split; [congruence|]. split; [reflexivity|].
    exists w1. auto.
  - rewrite run_ret. intros [= <- <-]. auto.
Qed.

Lemma Main_newLoop_returned (m : nat) :
  ∀ (k : nat) (newSecrets existingSecrets res : list Secret) (w w' : World),
    (k + m ≤ List.length newSecrets)%nat →
    Main.newLoop (seq k m) existingSecrets newSecrets w = (Returned res, w') →
    calls w' = calls w
    ∧ List.length res = List.length newSecrets
    ∧ (∀ i, (i < k ∨ k + m ≤ i)%nat → res !! i = newSecrets !! i)
    ∧ (∀ i t, (k ≤ i < k + m)%nat → newSecrets !! i = Some t →
         res !! i = Some (default t (firstMatch t existingSecrets))).
Proof.
  induction m as [|m IH]; intros k newSecrets existingSecrets res w w' Hlen; simpl.
  - rewrite run_ret. intros [= <- <-]. split; [reflexivity|]. split; [reflexivity|].
    split; [reflexivity|]. intros i t Hi Ht. lia.
  - destruct (lookup_lt_is_Some_2 newSecrets k) as [ns Hns]; [lia|].
    rewrite Hns. intros (news1 & w1 & Hstep & Hrest)%bind_returned.
    apply Main_existingLoop_returned in Hstep as [Hcalls Hstep].
    assert (news1 = <[k := default ns (firstMatch ns existingSecrets)]> newSecrets)
      as ->.
    { destruct (firstMatch ns existingSecrets); simpl.
      - apply Hstep.
      - destruct Hstep as [-> _]. symmetry. apply list_insert_id, Hns. }
    apply IH in Hrest as (Hcalls' & Hlen' & Hout & Hin);
      [|rewrite length_insert; lia].
    rewrite length_insert in Hlen'.
    split; [congruence|]. split; [exact Hlen'|]. split.
    + intros i Hi. rewrite Hout by lia. apply list_lookup_insert_ne. lia.
    + intros i t Hi Ht. destruct (decide (i = k)) as [->|Hne].
      * rewrite Hout by lia. rewrite list_lookup_insert_eq by lia. congruence.
      * apply Hin; [lia|]. rewrite list_lookup_insert_ne by lia. exact Ht.
Qed.

Lemma Main_updateSecretData_returned (newSecrets existingSecrets res : list Secret)
    (err : option error) (w w' : World) (i : nat) (t : Secret) :
  Main.updateSecretData newSecrets existingSecrets w = (Returned (res, err), w') →
  newSecrets !! i = Some t →
  res !! i = Some (default t (firstMatch t existingSecrets))
  ∧ err = None ∧ calls w' = calls w.
Proof.
  unfold Main.updateSecretData.
  intros (res' & w1 & Hloop & Hret)%bind_returned Ht.
  rewrite run_ret in Hret. injection Hret as <- <- <-.
  apply Main_newLoop_returned in Hloop as (Hcalls & _ & _ & Hin); [|simpl; lia].
  split; [|auto]. apply Hin; [|exact Ht].
  apply lookup_lt_Some in Ht. lia.
Qed.

(** The reconciler of [src/main.go] returns when every live secret has
    both its maps: a merge fails on a [nil] live map only. *)
Lemma Main_existingLoop_returns (i : nat) (ns : Secret)
    (existingSecrets newSecrets : list Secret) (w : World) :
  (∀ es, es ∈ existingSecrets → is_Some (Labels es) ∧ is_Some (Annotations es)) →
  ∃ res w', Main.existingLoop i ns existingSecrets newSecrets w = (Returned res, w')
            ∧ List.length res = List.length newSecrets.
Proof.
  intros Hlive. rewrite Main_existingLoop_firstMatch.
  destruct (firstMatch ns existingSecrets) as [es|] eqn:Hes.
  - destruct (firstMatch_elem _ _ _ Hes) as [Hin _].
    destruct (Hlive es Hin) as [[lb Hlb] [a Ha]].
    rewrite Hlb, Ha. unfold Main.mergeMapStringString.
    destruct (mergeMaps_into_map a (Annotations ns) w) as (w1 & Hw1 & _).
    destruct (mergeMaps_into_map lb (Labels ns) w1) as (w2 & Hw2 & _).
    rewrite run_bind, Hw1, run_bind, Hw2, run_ret.
    eexists _, _. split; [reflexivity | apply length_insert].
  - eexists _, _. split; reflexivity.
Qed.

Lemma Main_newLoop_returns (indices : list nat) :
  ∀ (existingSecrets newSecrets : list Secret) (w : World),
    (∀ es, es ∈ existingSecrets → is_Some (Labels es) ∧ is_Some (Annotations es)) →
    (∀ i, i ∈ indices → (i < List.length newSecrets)%nat) →
    ∃ res w', Main.newLoop indices existingSecrets newSecrets w = (Returned res, w').
Proof.
  induction indices as [|i indices IH]; intros existingSecrets newSecrets w Hlive Hlt.
  - eexists _, _. reflexivity.
  - simpl. destruct (lookup_lt_is_Some_2 newSecrets i) as [ns Hns]; [apply Hlt; left|].
    rewrite Hns, run_bind.
    destruct (Main_existingLoop_returns i ns existingSecrets newSecrets w Hlive)
      as (news1 & w1 & -> & Hlen).
    apply IH; [exact Hlive|]. intros j Hj. rewrite Hlen. apply Hlt. right. exact Hj.
Qed.

Lemma Main_updateSecretData_returns (newSecrets existingSecrets : list Secret) (w : World) :
  (∀ es, es ∈ existingSecrets → is_Some (Labels es) ∧ is_Some (Annotations es)) →
  ∃ res w', Main.updateSecretData newSecrets existingSecrets w = (Returned (res, None), w').
Proof.
  intros Hlive. unfold Main.updateSecretData.
  destruct (Main_newLoop_returns (seq 0 (List.length newSecrets))
              existingSecrets newSecrets w Hlive) as (res & w' & Hrun).
  { intros i Hi. apply elem_of_seq in Hi. lia. }
  rewrite run_bind, Hrun. eexists _, _. reflexivity.
Qed.

(** ** The reconciler of [src/unnamed/part_001] *)

(** It always returns and writes nothing: each merge is of a map with
    itself.  A matched template is replaced by the live secret carrying the
    template's own two maps. *)
Lemma Legacy_existingLoop_run (i : nat) (ls : Secret)
    (existingSecrets newSecrets : list Secret) (w : World) :
  Legacy.existingLoop i ls existingSecrets newSecrets w =
  (Returned match firstMatch ls existingSecrets with
            | None => newSecrets
            | Some rs =>
                <[i := setLabels (setAnnotations rs (Annotations ls)) (Labels ls)]>
                  newSecrets
            end, w).
Proof.
  induction existingSecrets as [|rs existingSecrets IH]; simpl; [reflexivity|].
  destruct (sameKey ls rs); [|exact IH].
  unfold Legacy.mergeAnnotations.
  rewrite run_bind, mergeMaps_self, run_bind, mergeMaps_self. reflexivity.
Qed.

Lemma Legacy_newLoop_run (m : nat) :
  ∀ (k : nat) (newSecrets existingSecrets : list Secret) (w : World),
    List.length newSecrets = k + m →
    ∃ res, Legacy.newLoop (seq k m) existingSecrets newSecrets w = (Returned res, w)
      ∧ (∀ i, (i < k)%nat → res !! i = newSecrets !! i)
      ∧ (∀ i t, (k ≤ i)%nat → newSecrets !! i = Some t →
           res !! i = Some match firstMatch t existingSecrets with
                           | None => t
                           | Some rs =>
                               setLabels (setAnnotations rs (Annotations t)) (Labels t)
                           end).
Proof.
  induction m as [|m IH]; intros k newSecrets existingSecrets w Hlen; simpl.
  - exists newSecrets. split; [reflexivity|]. split; [reflexivity|].
    intros i t Hi Ht. apply lookup_lt_Some in Ht. lia.
  - destruct (lookup_lt_is_Some_2 newSecrets k) as [ls Hls]; [lia|].
    rewrite Hls, run_bind, Legacy_existingLoop_run.
    set (r := match firstMatch ls existingSecrets with
              | None => ls
              | Some rs => setLabels (setAnnotations rs (Annotations ls)) (Labels ls)
              end).
    assert (match firstMatch ls existingSecrets with
            | None => newSecrets
            | Some rs =>
                <[k := setLabels (setAnnotations rs (Annotations ls)) (Labels ls)]>
                  newSecrets
            end = <[k := r]> newSecrets) as ->.
    { subst r. destruct (firstMatch ls existingSecrets); [reflexivity|].
      symmetry. apply list_insert_id, Hls. }
    destruct (IH (S k) (<[k := r]> newSecrets) existingSecrets w)
      as (res & Hrun & Hlow & Hhigh); [rewrite length_insert; lia|].
    exists res. split; [exact Hrun|]. split.
    + intros i Hi. rewrite Hlow by lia. apply list_lookup_insert_ne. lia.
    + intros i t Hi Ht. destruct (decide (i = k)) as [->|Hne].
      * rewrite Hlow by lia. rewrite list_lookup_insert_eq by lia.
        rewrite Hls in Ht. injection Ht as <-. reflexivity.
      * apply Hhigh; [lia|]. rewrite list_lookup_insert_ne by lia. exact Ht.
Qed.

Lemma Legacy_updateSecretData_run (newSecrets existingSecrets : list Secret) (w : World) :
  ∃ res, Legacy.updateSecretData newSecrets existingSecrets w = (Returned (res, None), w)
    ∧ ∀ i t, newSecrets !! i = Some t →
        res !! i = Some match firstMatch t existingSecrets with
                        | None => t
                        | Some rs =>
                            setLabels (setAnnotations rs (Annotations t)) (Labels t)
                        end.
Proof.
  destruct (Legacy_newLoop_run (List.length newSecrets) 0 newSecrets existingSecrets w)
    as (res & Hrun & _ & Hhigh); [reflexivity|].
  exists res. unfold Legacy.updateSecretData. rewrite run_bind, Hrun.
  split; [reflexivity|]. intros i t Ht. apply Hhigh; [lia | exact Ht].
Qed.

(** C1. Let the template at index [i] have a matching live secret [es] (the
    first live secret with its namespace and name).  Whenever the reconciler
    of [src/main.go] returns, which it does at least when every live secret
    has both its maps, and always for the reconciler of
    [src/unnamed/part_001], which never fails, the reconciled secret at index
    [i] has the data, the resourceVersion and the UID of [es], whatever the
    template carries. *)
Theorem updateSecretData_keeps_live_data
    (newSecrets existingSecrets : list Secret) (i : nat) (t es : Secret) (w : World) :
  newSecrets !! i = Some t →
  firstMatch t existingSecrets = Some es →
  (∀ res err w',
     Main.updateSecretData newSecrets existingSecrets w = (Returned (res, err), w') →
     ∃ r, res !! i = Some r
          ∧ Data r = Data es ∧ ResourceVersion r = ResourceVersion es ∧ UID r = UID es)
  ∧ ((∀ e, e ∈ existingSecrets → is_Some (Labels e) ∧ is_Some (Annotations e)) →
     ∃ res w',
       Main.updateSecretData newSecrets existingSecrets w = (Returned (res, None), w'))
  ∧ (∃ res r,
       Legacy.updateSecretData newSecrets existingSecrets w = (Returned (res, None), w)
       ∧ res !! i = Some r
       ∧ Data r = Data es ∧ ResourceVersion r = ResourceVersion es ∧ UID r = UID es).
Proof.
  intros Ht Hes. split; [|split].
  - intros res err w' Hrun.
    destruct (Main_updateSecretData_returned _ _ _ _ _ _ _ _ Hrun Ht) as (Hr & _).
    rewrite Hes in Hr. exists es. auto.
  - apply Main_updateSecretData_returns.
  - destruct (Legacy_updateSecretData_run newSecrets existingSecrets w) as (res & Hrun & Hres).
    specialize (Hres i t Ht). rewrite Hes in Hres.
    exists res. eexists. split; [exact Hrun|]. split; [exact Hres|]. auto.
Qed.

Lemma updateSecretData_keeps_live_data_witness :
  (∃ r, [exampleLive] !! 0%nat = Some r
        ∧ Data r = exampleData ∧ ResourceVersion r = "42" ∧ UID r = "u1")
  ∧ (∃ res r,
       Legacy.updateSecretData [exampleTemplate] [exampleLive] exampleWorld
       = (Returned (res, None), exampleWorld)
       ∧ res !! 0%nat = Some r
       ∧ Data r = exampleData ∧ ResourceVersion r = "42" ∧ UID r = "u1").
Proof.
  destruct (updateSecretData_keeps_live_data
              [exampleTemplate] [exampleLive] 0 exampleTemplate exampleLive exampleWorld
              eq_refl eq_refl) as (HMain & _ & HLegacy).
  split; [|exact HLegacy].
  apply (HMain [exampleLive] None exampleMerged). vm_compute. reflexivity.
Defined.

(** The run of [src/main.go]'s reconciler on the running example: it returns
    the live secret, whose label map now holds the merged labels. *)
Example Main_updateSecretData_example :
  Main.updateSecretData [exampleTemplate] [exampleLive] exampleWorld
  = (Returned ([exampleLive], None), exampleMerged).
Proof. vm_compute. reflexivity. Qed.

(** ** The applier of [src/main.go] *)

Lemma deleteRecreateSecret_run (env : Env) (secret : Secret) (w : World) :
  let cleaned := Main.clearIdentity secret in
  let ns := Namespace secret in
  let name := Name secret in
  Main.deleteRecreateSecret env secret w =
  match onGet (cluster env) (calls w) ns name with
  | Some e => (Returned (cleaned, Some e), mkWorld (store w) (calls w ++ [CallGet ns name]))
  | None =>
      match onDelete (cluster env) (calls w ++ [CallGet ns name]) ns name with
      | Some e =>
          (Returned (cleaned, Some e),
           mkWorld (store w) (calls w ++ [CallGet ns name; CallDelete ns name]))
      | None =>
          (Returned (cleaned,
                     onCreate (cluster env)
                       (calls w ++ [CallGet ns name; CallDelete ns name]) ns
                       (wireOf w cleaned)),
           mkWorld (store w)
             (calls w ++ [CallGet ns name; CallDelete ns name;
                          CallCreate ns (wireOf w cleaned)]))
      end
  end.
Proof.
  unfold Main.deleteRecreateSecret, request, snapshot. simpl.
  rewrite run_bind. simpl.
  destruct (onGet _ _ _ _) as [e|]; [reflexivity|].
  rewrite run_bind. simpl. rewrite <- !app_assoc. simpl.
  destruct (onDelete _ _ _ _) as [e|]; [reflexivity|].
  rewrite !run_bind. simpl. rewrite <- !app_assoc. simpl.
  unfold wireOf. simpl.
  destruct (onCreate _ _ _ _) as [e|]; reflexivity.
Qed.

(** C3 (as stated it fails). The live secret of the running example carries
    the UID [u1]; the cluster rejects its Update, answers the Get (the secret
    is there) and rejects the Delete.  The applier sends Update, Get and
    Delete and returns the Delete's error: no Create is sent, although the
    Get did not report the secret absent. *)
Lemma ensureCreateSecret_failed_delete_sends_no_create :
  UID exampleLive ≠ EmptyString
  ∧ onGet refusingCluster [CallUpdate "a" (wireOf exampleWorld exampleLive)] "a" "s1" = None
  ∧ Main.ensureCreateSecret exampleEnv exampleLive exampleWorld
    = (Returned (Main.clearIdentity exampleLive, Some "delete forbidden"),
       mkWorld exampleStore
         [CallUpdate "a" (wireOf exampleWorld exampleLive);
          CallGet "a" "s1";
          CallDelete "a" "s1"]).
Proof.
  split; [discriminate|]. split; [reflexivity|]. vm_compute. reflexivity.
Qed.

(** C3 (amended). When the Update of a secret with a non-empty UID fails,
    the applier clears the UID, the resourceVersion and the creation
    timestamp and sends one Get.  If the Get fails, nothing more is sent and
    the Get's error is returned.  Otherwise one Delete follows; if it fails,
    nothing more is sent and its error is returned.  Otherwise one Create of
    the cleared secret follows, and its result is returned.  The requests
    are exactly these, in this order. *)
Theorem ensureCreateSecret_update_failure_recreates
    (env : Env) (secret : Secret) (w : World) (uerr : error) :
  UID secret ≠ EmptyString →
  onUpdate (cluster env) (calls w) (Namespace secret) (wireOf w secret) = Some uerr →
  let ns := Namespace secret in
  let name := Name secret in
  let cleaned := Main.clearIdentity secret in
  let sent := calls w ++ [CallUpdate ns (wireOf w secret)] in
  (UID cleaned = EmptyString ∧ ResourceVersion cleaned = EmptyString
   ∧ CreationTimestamp cleaned = None
   ∧ Namespace cleaned = ns ∧ Name cleaned = name ∧ Data cleaned = Data secret)
  ∧ (∀ e, onGet (cluster env) sent ns name = Some e →
       Main.ensureCreateSecret env secret w
       = (Returned (cleaned, Some e), mkWorld (store w) (sent ++ [CallGet ns name])))
  ∧ (∀ e, onGet (cluster env) sent ns name = None →
       onDelete (cluster env) (sent ++ [CallGet ns name]) ns name = Some e →
       Main.ensureCreateSecret env secret w
       = (Returned (cleaned, Some e),
          mkWorld (store w) (sent ++ [CallGet ns name; CallDelete ns name])))
  ∧ (onGet (cluster env) sent ns name = None →
     onDelete (cluster env) (sent ++ [CallGet ns name]) ns name = None →
     Main.ensureCreateSecret env secret w
     = (Returned (cleaned,
                  onCreate (cluster env)
                    (sent ++ [CallGet ns name; CallDelete ns name]) ns (wireOf w cleaned)),
        mkWorld (store w)
          (sent ++ [CallGet ns name; CallDelete ns name;
                    CallCreate ns (wireOf w cleaned)]))).
Proof.
  intros Huid Hupdate ns name cleaned sent.
  split; [repeat split|].
  assert (Main.ensureCreateSecret env secret w
          = Main.deleteRecreateSecret env secret (mkWorld (store w) sent)) as ->.
  { unfold Main.ensureCreateSecret.
    destruct (String.eqb_spec (UID secret) EmptyString) as [Heq|_]; [contradiction|].
    cbn [negb]. unfold snapshot, request. rewrite !run_bind. cbn [calls store].
    rewrite Hupdate. reflexivity. }
  rewrite deleteRecreateSecret_run. simpl. fold ns name cleaned.
  split; [|split].
  - intros e ->. reflexivity.
  - intros e -> ->. reflexivity.
  - intros -> ->. reflexivity.
Qed.

Lemma ensureCreateSecret_update_failure_recreates_witness :
  Main.ensureCreateSecret exampleEnv exampleLive exampleWorld
  = (Returned (Main.clearIdentity exampleLive, Some "delete forbidden"),
     mkWorld exampleStore
       ([CallUpdate "a" (wireOf exampleWorld exampleLive)]
        ++ [CallGet "a" "s1"; CallDelete "a" "s1"])).
Proof.
  refine (proj1 (proj2 (proj2
            (ensureCreateSecret_update_failure_recreates
               exampleEnv exampleLive exampleWorld "update rejected" _ _)))
            "delete forbidden" _ _).
  - discriminate.
  - reflexivity.
  - reflexivity.
  - reflexivity.
Defined.

(** C4. A template whose namespace and name no live secret has is returned
    by the reconciler of [src/main.go] as it is, whenever the reconciler
    returns.  Carrying no UID, it is then applied by exactly one Create
    request, and nothing else, when that Create succeeds. *)
Theorem unmatched_template_is_created
    (env : Env) (newSecrets existingSecrets res : list Secret) (err : option error)
    (i : nat) (t : Secret) (w w' w2 : World) :
  newSecrets !! i = Some t →
  (∀ es, es ∈ existingSecrets →
         ¬ (Name es = Name t ∧ Namespace es = Namespace t)) →
  UID t = EmptyString →
  Main.updateSecretData newSecrets existingSecrets w = (Returned (res, err), w') →
  onCreate (cluster env) (calls w2) (Namespace t) (wireOf w2 t) = None →
  res !! i = Some t
  ∧ Main.ensureCreateSecret env t w2
    = (Returned (t, None),
       mkWorld (store w2) (calls w2 ++ [CallCreate (Namespace t) (wireOf w2 t)])).
Proof.
  intros Ht Hnone Huid Hrun Hcreate. split.
  - destruct (Main_updateSecretData_returned _ _ _ _ _ _ _ _ Hrun Ht) as (Hr & _).
    assert (firstMatch t existingSecrets = None) as Hfm.
    { apply firstMatch_None. intros es Hes.
      destruct (sameKey t es) eqn:Hkey; [|reflexivity].
      apply sameKey_spec in Hkey as [Hname Hns].
      exfalso. apply (Hnone es Hes). split; congruence. }
    rewrite Hfm in Hr. exact Hr.
  - unfold Main.ensureCreateSecret. rewrite Huid. cbn [String.eqb negb].
    unfold snapshot, request. rewrite !run_bind. cbn [calls store].
    rewrite Hcreate. reflexivity.
Qed.

Lemma unmatched_template_is_created_witness :
  [exampleUnmatched] !! 0%nat = Some exampleUnmatched
  ∧ Main.ensureCreateSecret exampleEnv exampleUnmatched exampleWorld
    = (Returned (exampleUnmatched, None),
       mkWorld exampleStore
         ([] ++ [CallCreate "b" (wireOf exampleWorld exampleUnmatched)])).
Proof.
  apply (unmatched_template_is_created exampleEnv
           [exampleUnmatched] [exampleLive] [exampleUnmatched] None
           0 exampleUnmatched exampleWorld exampleWorld exampleWorld).
  - reflexivity.
  - intros es Hes [Hname _]. apply list_elem_of_singleton in Hes as ->. discriminate.
  - reflexivity.
  - vm_compute. reflexivity.
  - reflexivity.
Defined.

(** ** Labels and annotations of the reconciled secret *)

(** C2 (the code of [src/unnamed/part_001] fails it). On the running
    example the union of the template's labels and the live labels is
    [x=1], [y=2].  The reconciler of [src/unnamed/part_001] merges the
    template's label map with itself and gives that map to the reconciled
    secret: its labels are [x=1] alone, the live label [y=2] is lost. *)
Theorem Legacy_updateSecretData_drops_live_labels :
  firstMatch exampleTemplate [exampleLive] = Some exampleLive
  ∧ contents exampleWorld (Labels exampleTemplate) ∪ contents exampleWorld (Labels exampleLive)
    = {[ "x" := "1"; "y" := "2" ]}
  ∧ ∃ r, Legacy.updateSecretData [exampleTemplate] [exampleLive] exampleWorld
         = (Returned ([r], None), exampleWorld)
         ∧ Labels r = Labels exampleTemplate
         ∧ contents exampleWorld (Labels r) = {[ "x" := "1" ]}
         ∧ contents exampleWorld (Labels r) !! "y" = None.
Proof.
  split; [reflexivity|]. split; [vm_compute; reflexivity|].
  eexists. split; [vm_compute; reflexivity|].
  split; [reflexivity|]. split; vm_compute; reflexivity.
Qed.

(** In general the reconciler of [src/unnamed/part_001] gives the
    reconciled secret the template's own maps. *)
Lemma Legacy_updateSecretData_template_maps
    (newSecrets existingSecrets : list Secret) (i : nat) (t rs : Secret) (w : World) :
  newSecrets !! i = Some t →
  firstMatch t existingSecrets = Some rs →
  ∃ res r, Legacy.updateSecretData newSecrets existingSecrets w = (Returned (res, None), w)
           ∧ res !! i = Some r
           ∧ Labels r = Labels t ∧ Annotations r = Annotations t.
Proof.
  intros Ht Hrs.
  destruct (Legacy_updateSecretData_run newSecrets existingSecrets w) as (res & Hrun & Hres).
  specialize (Hres i t Ht). rewrite Hrs in Hres.
  exists res. eexists. split; [exact Hrun|]. split; [exact Hres|]. auto.
Qed.

(** The reconciler of [src/main.go] does merge.  The frame of one turn of
    its outer loop: only the maps of the matched live secret are written. *)
Lemma contents_frame (w w' : World) (m : mapref) :
  (∀ l, m = Some l → store w' !! l = store w !! l) → contents w' m = contents w m.
Proof.
  intros H. destruct m as [l|]; [|reflexivity].
  unfold contents. simpl. rewrite !lookup_total_alt, (H l eq_refl). reflexivity.
Qed.

Lemma elem_of_mapsOf (s : Secret) (l : loc) :
  l ∈ mapsOf s ↔ Labels s = Some l ∨ Annotations s = Some l.
Proof.
  unfold mapsOf. rewrite elem_of_app.
  destruct (Labels s), (Annotations s); simpl;
    rewrite ?list_elem_of_singleton, ?elem_of_nil; intuition congruence.
Qed.

Lemma Main_existingLoop_frame (i : nat) (ns : Secret)
    (existingSecrets newSecrets res : list Secret) (w w' : World) (l : loc) :
  Main.existingLoop i ns existingSecrets newSecrets w = (Returned res, w') →
  (∀ es, firstMatch ns existingSecrets = Some es → l ∉ mapsOf es) →
  store w' !! l = store w !! l.
Proof.
  intros [_ Hstep]%Main_existingLoop_returned Hl.
  destruct (firstMatch ns existingSecrets) as [es|].
  - destruct Hstep as (_ & w1 & _ & Hfa & _ & Hfl).
    specialize (Hl es eq_refl). rewrite elem_of_mapsOf in Hl.
    rewrite Hfl, Hfa; [reflexivity | |]; intros Heq; apply Hl; auto.
  - destruct Hstep as [_ ->]. reflexivity.
Qed.

Lemma Main_newLoop_frame (m : nat) :
  ∀ (k : nat) (newSecrets existingSecrets res : list Secret) (w w' : World) (l : loc),
    (k + m ≤ List.length newSecrets)%nat →
    Main.newLoop (seq k m) existingSecrets newSecrets w = (Returned res, w') →
    (∀ j t es, (k ≤ j < k + m)%nat → newSecrets !! j = Some t →
               firstMatch t existingSecrets = Some es → l ∉ mapsOf es) →
    store w' !! l = store w !! l.
Proof.
  induction m as [|m IH]; intros k newSecrets existingSecrets res w w' l Hlen; simpl.
  - rewrite run_ret. intros [= <- <-] _. reflexivity.
  - destruct (lookup_lt_is_Some_2 newSecrets k) as [ns Hns]; [lia|].
    rewrite Hns. intros (news1 & w1 & Hstep & Hrest)%bind_returned Hl.
    pose proof (Main_existingLoop_frame _ _ _ _ _ _ _ l Hstep) as Hw1.
    apply Main_existingLoop_returned in Hstep as [_ Hstep].
    assert (∀ j, j ≠ k → news1 !! j = newSecrets !! j) as Hsame.
    { intros j Hj. destruct (firstMatch ns existingSecrets).
      - destruct Hstep as [-> _]. apply list_lookup_insert_ne. congruence.
      - destruct Hstep as [-> _]. reflexivity. }
    assert (List.length news1 = List.length newSecrets) as Hlen1.
    { destruct (firstMatch ns existingSecrets).
      - destruct Hstep as [-> _]. apply length_insert.
      - destruct Hstep as [-> _]. reflexivity. }
    rewrite (IH (S k) news1 existingSecrets res w1 w' l); [| lia | exact Hrest |].
    + apply Hw1. intros es Hes. apply (Hl k ns es); [lia | exact Hns | exact Hes].
    + intros j t es Hj Ht Hes. apply (Hl j t es); [lia | | exact Hes].
      rewrite <- Hsame by lia. exact Ht.
Qed.

Lemma Main_newLoop_app (indices1 indices2 : list nat)
    (existingSecrets newSecrets : list Secret) (w : World) :
  Main.newLoop (indices1 ++ indices2) existingSecrets newSecrets w =
  (newSecrets' ← Main.newLoop indices1 existingSecrets newSecrets;
   Main.newLoop indices2 existingSecrets newSecrets') w.
Proof.
  revert newSecrets w.
  induction indices1 as [|i indices1 IH]; intros newSecrets w; simpl; [reflexivity|].
  destruct (newSecrets !! i) as [ns|]; [|reflexivity].
  rewrite !run_bind.
  destruct (Main.existingLoop i ns existingSecrets newSecrets w) as [[news1| |status] w1];
    [apply IH | reflexivity..].
Qed.

Lemma seq_split_at (i n : nat) :
  (i < n)%nat → seq 0 n = seq 0 i ++ i :: seq (S i) (n - S i).
Proof.
  intros Hi. replace n with (i + S (n - S i))%nat at 1 by lia.
  rewrite seq_app. reflexivity.
Qed.

(** Live secrets that share no map object: a map object identifies its
    secret, and the two maps of a secret differ. *)
Lemma liveMaps_owner (existingSecrets : list Secret) (e1 e2 : Secret) (l : loc) :
  NoDup (liveMaps existingSecrets) →
  e1 ∈ existingSecrets → e2 ∈ existingSecrets →
  l ∈ mapsOf e1 → l ∈ mapsOf e2 → e1 = e2.
Proof.
  unfold liveMaps.
  induction existingSecrets as [|e existingSecrets IH]; [intros _ H; inversion H|].
  change ((e :: existingSecrets) ≫= mapsOf) with (mapsOf e ++ (existingSecrets ≫= mapsOf)).
  intros (_ & Hdisj & Hnd)%NoDup_app H1 H2 Hl1 Hl2.
  apply elem_of_cons in H1 as [->|H1]; apply elem_of_cons in H2 as [->|H2].
  - reflexivity.
  - exfalso. apply (Hdisj l Hl1). apply list_elem_of_bind. eauto.
  - exfalso. apply (Hdisj l Hl2). apply list_elem_of_bind. eauto.
  - apply IH; assumption.
Qed.

Lemma liveMaps_two_maps (existingSecrets : list Secret) (es : Secret) (l : loc) :
  NoDup (liveMaps existingSecrets) → es ∈ existingSecrets →
  Labels es = Some l → Annotations es = Some l → False.
Proof.
  unfold liveMaps.
  induction existingSecrets as [|e existingSecrets IH]; [intros _ H; inversion H|].
  change ((e :: existingSecrets) ≫= mapsOf) with (mapsOf e ++ (existingSecrets ≫= mapsOf)).
  intros (Hnd1 & _ & Hnd)%NoDup_app [->|H]%elem_of_cons Hlb Ha.
  - unfold mapsOf in Hnd1. rewrite Hlb, Ha in Hnd1. simpl in Hnd1.
    apply NoDup_cons in Hnd1 as [Hin _]. apply Hin. left.
  - eapply IH; eassumption.
Qed.

(** The reconciler of [src/main.go] on a matched template: when no other
    template has the same key, the live secrets share no map object and the
    template's maps are not live maps, the reconciled secret is the live
    secret, and each of its two maps holds the union of the template's map
    and the live map as they were, the template's entries winning. *)
Lemma Main_updateSecretData_merges_metadata
    (newSecrets existingSecrets res : list Secret) (err : option error)
    (i : nat) (t es : Secret) (w w' : World) :
  newSecrets !! i = Some t →
  firstMatch t existingSecrets = Some es →
  (∀ j t', newSecrets !! j = Some t' → j ≠ i →
           ¬ (Name t' = Name t ∧ Namespace t' = Namespace t)) →
  NoDup (liveMaps existingSecrets) →
  (∀ l, l ∈ mapsOf t → l ∉ liveMaps existingSecrets) →
  Main.updateSecretData newSecrets existingSecrets w = (Returned (res, err), w') →
  res !! i = Some es
  ∧ contents w' (Labels es) = contents w (Labels t) ∪ contents w (Labels es)
  ∧ contents w' (Annotations es)
    = contents w (Annotations t) ∪ contents w (Annotations es).
Proof.
  intros Ht Hes Hkeys Hnd Hsep Hrun.
  pose proof (lookup_lt_Some _ _ _ Ht) as Hi.
  destruct (firstMatch_elem _ _ _ Hes) as [Hin Hkey].
  apply sameKey_spec in Hkey as [Hname Hns].
  (* the maps of [es] and of [t] belong to no other matched live secret *)
  assert (∀ j t' e l, j ≠ i → newSecrets !! j = Some t' →
            firstMatch t' existingSecrets = Some e →
            l ∈ mapsOf es ∨ l ∈ mapsOf t → l ∉ mapsOf e) as Hother.
  { intros j t' e l Hj Ht' He Hl Hle.
    destruct (firstMatch_elem _ _ _ He) as [Hine Hkeye].
    destruct Hl as [Hl|Hl].
    - assert (es = e) as <- by (eapply liveMaps_owner; eassumption).
      apply sameKey_spec in Hkeye as [Hname' Hns'].
      apply (Hkeys j t' Ht' Hj). split; congruence.
    - apply (Hsep l Hl). apply list_elem_of_bind. eauto. }
  unfold Main.updateSecretData in Hrun.
  apply bind_returned in Hrun as (res' & w3 & Hloop & Hret).
  rewrite run_ret in Hret. injection Hret as <- <- <-.
  rewrite (seq_split_at i) in Hloop by exact Hi.
  rewrite Main_newLoop_app in Hloop.
  apply bind_returned in Hloop as (news1 & w1 & Hbefore & Hloop).
  pose proof Hbefore as (_ & Hlen1 & Hout1 & _)%Main_newLoop_returned;
    [|simpl; lia].
  simpl in Hloop. rewrite Hout1, Ht in Hloop by lia.
  apply bind_returned in Hloop as (news2 & w2 & Hstep & Hafter).
  apply Main_existingLoop_returned in Hstep as [_ Hstep]. rewrite Hes in Hstep.
  destruct Hstep as (-> & wa & HA & HFa & HL & HFl).
  pose proof Hafter as (_ & _ & Hout3 & _)%Main_newLoop_returned;
    [|rewrite length_insert; lia].
  (* the store before and after the turn of [t] *)
  assert (∀ l, l ∈ mapsOf es ∨ l ∈ mapsOf t → store w1 !! l = store w !! l) as Hw1.
  { intros l Hl. eapply Main_newLoop_frame; [|exact Hbefore|]; [simpl; lia|].
    intros j t' e Hj Ht' He. apply (Hother j t' e l); auto. lia. }
  assert (∀ l, l ∈ mapsOf es → store w3 !! l = store w2 !! l) as Hw3.
  { intros l Hl. eapply Main_newLoop_frame; [|exact Hafter|];
      [rewrite length_insert; lia|].
    intros j t' e Hj Ht' He. apply (Hother j t' e l); auto; [lia|].
    rewrite list_lookup_insert_ne in Ht' by lia. rewrite <- Hout1 by lia. exact Ht'. }
  split; [|split].
  - rewrite Hout3 by lia. apply list_lookup_insert_eq. lia.
  - transitivity (contents w2 (Labels es)).
    { apply contents_frame. intros l Hl. apply Hw3, elem_of_mapsOf. auto. }
    rewrite HL. f_equal.
    + transitivity (contents w1 (Labels t)); apply contents_frame; intros l Hl.
      * apply HFa. intros Ha. apply (Hsep l); [apply elem_of_mapsOf; auto|].
        apply list_elem_of_bind. exists es. split; [|exact Hin].
        apply elem_of_mapsOf. auto.
      * apply Hw1. right. apply elem_of_mapsOf. auto.
    + transitivity (contents w1 (Labels es)); apply contents_frame; intros l Hl.
      * apply HFa. intros Ha. eapply liveMaps_two_maps; eauto.
      * apply Hw1. left. apply elem_of_mapsOf. auto.
  - transitivity (contents w2 (Annotations es)).
    { apply contents_frame. intros l Hl. apply Hw3, elem_of_mapsOf. auto. }
    transitivity (contents wa (Annotations es)).
    { apply contents_frame. intros l Hl. apply HFl. intros Hlb.
      eapply liveMaps_two_maps; eauto. }
    rewrite HA. f_equal; apply contents_frame; intros l Hl; apply Hw1.
    + right. apply elem_of_mapsOf. auto.
    + left. apply elem_of_mapsOf. auto.
Qed.

(** The reconciler of [src/main.go] writes to maps of live secrets only:
    a template's maps, when they are not live maps, read as before. *)
Lemma Main_updateSecretData_frame
    (newSecrets existingSecrets res : list Secret) (err : option error)
    (w w' : World) (l : loc) :
  Main.updateSecretData newSecrets existingSecrets w = (Returned (res, err), w') →
  l ∉ liveMaps existingSecrets →
  store w' !! l = store w !! l.
Proof.
  unfold Main.updateSecretData.
  intros (res' & w1 & Hloop & Hret)%bind_returned Hl.
  rewrite run_ret in Hret. injection Hret as <- <- <-.
  eapply Main_newLoop_frame; [|exact Hloop|]; [simpl; lia|].
  intros j t es _ _ Hes Hles. apply Hl.
  apply list_elem_of_bind. exists es. split; [exact Hles|].
  apply (firstMatch_elem _ _ _ Hes).
Qed.

Example Main_updateSecretData_merges_metadata_example :
  contents exampleMerged (Labels exampleLive)
  = contents exampleWorld (Labels exampleTemplate)
    ∪ contents exampleWorld (Labels exampleLive)
  ∧ contents exampleMerged (Labels exampleLive) !! "x" = Some "1"
  ∧ contents exampleMerged (Labels exampleLive) !! "y" = Some "2".
Proof.
  destruct (Main_updateSecretData_merges_metadata
              [exampleTemplate] [exampleLive] [exampleLive] None 0
              exampleTemplate exampleLive exampleWorld exampleMerged)
    as (_ & Hlabels & _).
  - reflexivity.
  - reflexivity.
  - intros [|j] t' Ht' Hj; [contradiction | discriminate].
  - apply (NoDup_singleton 1%positive).
  - intros l Hl Hl'.
    apply (list_elem_of_singleton l 2%positive) in Hl as ->.
    apply (list_elem_of_singleton 2%positive 1%positive) in Hl'. discriminate.
  - vm_compute. reflexivity.
  - split; [exact Hlabels|]. split; vm_compute; reflexivity.
Qed.

(** ** Input errors *)

Lemma decodeDocs_bad (env : Env) (prepare : string → option string)
    (docs : list string) (secrets : list Secret) :
  (∃ doc doc', doc ∈ docs ∧ prepare doc = Some doc' ∧ badDocument env doc') →
  ∃ e, decodeDocs env prepare docs secrets = inr e.
Proof.
  revert secrets.
  induction docs as [|d docs IH]; intros secrets (doc & doc' & Hin & Hprep & Hbad).
  - inversion Hin.
  - simpl. apply elem_of_cons in Hin as [->|Hin].
    + rewrite Hprep. destruct Hbad as [[e He]|(object & Ho & Hgvk & Hsec)].
      * rewrite He. eauto.
      * rewrite Ho, Hgvk, Hsec. eauto.
    + assert (∀ secrets', ∃ e, decodeDocs env prepare docs secrets' = inr e) as Hrest
        by (intros secrets'; apply IH; eauto).
      destruct (prepare d) as [d'|]; [|apply Hrest].
      destruct (Decode env d') as [object|e]; [|eauto].
      destruct (isSecretGVK (objGVK object)); [|apply Hrest].
      destruct (objSecret object); [apply Hrest | eauto].
Qed.

(** The three parsers stop at the first file in error, so a file in error
    anywhere makes them fail. *)
Ltac parseFiles_bad decodeRun :=
  let secrets := fresh "secrets" in
  let IH := fresh "IH" in
  intros files; induction files as [|f files IH];
  intros secrets (file & Hin & Hbad);
  [ inversion Hin
  | simpl; apply elem_of_cons in Hin as [->|Hin];
    [ destruct Hbad as [[e He]|(fd & doc & doc' & Hfd & Hdoc & Hprep & Hbad)];
      [ rewrite He; eauto
      | rewrite Hfd;
        destruct (decodeRun fd secrets doc doc' Hdoc Hprep Hbad) as [e ->]; eauto ]
    | destruct (ReadFile _ f) as [fd|e]; [|eauto];
      match goal with
      | |- ∃ _, match ?run with _ => _ end = _ =>
          destruct run as [secrets'|e]; [apply IH; eauto | eauto]
      end ] ].

Lemma Main_parseFiles_bad (env : Env) :
  ∀ (files : list string) (secrets : list Secret),
    (∃ file, file ∈ files
             ∧ badFile env (fun fd => Split fd "---") Main.prepareDoc file) →
    ∃ e, Main.parseFiles env files secrets = inr e.
Proof.
  parseFiles_bad
    (fun fd secrets doc doc' (Hdoc : doc ∈ Split fd "---")
         (Hprep : Main.prepareDoc doc = Some doc') (Hbad : badDocument env doc') =>
       decodeDocs_bad env Main.prepareDoc (Split fd "---") secrets
         (ex_intro _ doc (ex_intro _ doc' (conj Hdoc (conj Hprep Hbad))))).
Qed.

Lemma Metadata_parseFiles_bad (env : Env) :
  ∀ (files : list string) (secrets : list Secret),
    (∃ file, file ∈ files
             ∧ badFile env (fun fd => Split (Metadata.removeComments fd) "---")
                 Metadata.prepareDoc file) →
    ∃ e, Metadata.parseFiles env files secrets = inr e.
Proof.
  parseFiles_bad
    (fun fd secrets doc doc'
         (Hdoc : doc ∈ Split (Metadata.removeComments fd) "---")
         (Hprep : Metadata.prepareDoc doc = Some doc') (Hbad : badDocument env doc') =>
       decodeDocs_bad env Metadata.prepareDoc
         (Split (Metadata.removeComments fd) "---") secrets
         (ex_intro _ doc (ex_intro _ doc' (conj Hdoc (conj Hprep Hbad))))).
Qed.

Lemma Legacy_parseFiles_bad (env : Env) :
  ∀ (files : list string) (secrets : list Secret),
    (∃ file, file ∈ files
             ∧ badFile env (fun fd => Split fd "---") Legacy.prepareDoc file) →
    ∃ e, Legacy.parseFiles env files secrets = inr e.
Proof.
  parseFiles_bad
    (fun fd secrets doc doc' (Hdoc : doc ∈ Split fd "---")
         (Hprep : Legacy.prepareDoc doc = Some doc') (Hbad : badDocument env doc') =>
       decodeDocs_bad env Legacy.prepareDoc (Split fd "---") secrets
         (ex_intro _ doc (ex_intro _ doc' (conj Hdoc (conj Hprep Hbad))))).
Qed.

(** C5 (as stated it fails). The template directory of [exampleEnv] cannot
    be read.  The run of [src/main.go] does not abort: it returns normally,
    having sent nothing to the cluster. *)
Lemma main_unreadable_directory_is_not_fatal :
  ReadDir exampleEnv (secretDirOf exampleEnv)
  = inr "open /missing: no such file or directory"
  ∧ Main.main exampleEnv exampleWorld = (Returned tt, exampleWorld).
Proof. split; vm_compute; reflexivity. Qed.

(** C5 (amended). In each of the three programs, a template file that cannot
    be read, a document that does not decode and a document of the Secret
    kind that is not a secret object are fatal: the run exits with status 1
    and the world is as it was, so no request at all was sent.  An
    unreadable template directory is not fatal: it is treated as holding no
    file, and the run returns normally, again without any request. *)
Theorem input_errors_before_any_request (env : Env) (w : World) :
  ((∃ file, file ∈ getSecretFiles env (secretDirOf env)
            ∧ badFile env (fun fd => Split fd "---") Main.prepareDoc file) →
   Main.main env w = (Exited 1, w))
  ∧ ((∃ file, file ∈ getSecretFiles env (secretDirOf env)
              ∧ badFile env (fun fd => Split (Metadata.removeComments fd) "---")
                  Metadata.prepareDoc file) →
     Metadata.main env w = (Exited 1, w))
  ∧ ((∃ file, file ∈ getSecretFiles env (secretDirOf env)
              ∧ badFile env (fun fd => Split fd "---") Legacy.prepareDoc file) →
     Legacy.main env w = (Exited 1, w))
  ∧ ((∃ e, ReadDir env (secretDirOf env) = inr e) →
     getSecretFiles env (secretDirOf env) = []
     ∧ Main.main env w = (Returned tt, w)
     ∧ Metadata.main env w = (Returned tt, w)
     ∧ Legacy.main env w = (Returned tt, w)).
Proof.
  split; [|split; [|split]].
  - intros Hbad. unfold Main.main, Main.parseFilesAsSecrets.
    destruct (Main_parseFiles_bad env _ [] Hbad) as [e ->]. reflexivity.
  - intros Hbad. unfold Metadata.main, Metadata.parseFilesAsSecrets.
    destruct (Metadata_parseFiles_bad env _ [] Hbad) as [e ->]. reflexivity.
  - intros Hbad. unfold Legacy.main, Legacy.parseFilesAsSecrets.
    destruct (Legacy_parseFiles_bad env _ [] Hbad) as [e ->]. reflexivity.
  - intros [e He].
    assert (getSecretFiles env (secretDirOf env) = []) as Hfiles
      by (unfold getSecretFiles; rewrite He; reflexivity).
    split; [exact Hfiles|].
    unfold Main.main, Metadata.main, Legacy.main. rewrite Hfiles.
    repeat split; destruct w; reflexivity.
Qed.

Lemma input_errors_before_any_request_witness :
  Main.main brokenFileEnv exampleWorld = (Exited 1, exampleWorld)
  ∧ Main.main exampleEnv exampleWorld = (Returned tt, exampleWorld).
Proof.
  destruct (input_errors_before_any_request brokenFileEnv exampleWorld)
    as (Hfile & _).
  destruct (input_errors_before_any_request exampleEnv exampleWorld)
    as (_ & _ & _ & Hdir).
  split.
  - apply Hfile. exists "/templates/secret.yaml". split; [left|].
    right. exists "kind: Secret", "kind: Secret", "kind: Secret".
    split; [reflexivity|]. split; [left|]. split; [vm_compute; reflexivity|].
    left. eexists. reflexivity.
  - apply Hdir. eexists. reflexivity.
Defined.

(** ** The maintenance mode *)

Lemma sendsOnly_ret {A} (P : Call → Prop) (a : A) : sendsOnly P (mret a : Go A).
Proof. intros w. exists []. rewrite app_nil_r. split; [reflexivity | constructor]. Qed.

Lemma sendsOnly_stop {A} (P : Call → Prop) (o : Outcome A) :
  sendsOnly P (fun w => (o, w)).
Proof. intros w. exists []. rewrite app_nil_r. split; [reflexivity | constructor]. Qed.

Lemma sendsOnly_bind {A B} (P : Call → Prop) (m : Go A) (f : A → Go B) :
  sendsOnly P m → (∀ a, sendsOnly P (f a)) → sendsOnly P (m ≫= f).
Proof.
  intros Hm Hf w. rewrite run_bind.
  destruct (Hm w) as (sent1 & Hcalls1 & HP1).
  destruct (m w) as [[a| |status] w1]; simpl in Hcalls1; [|eauto..].
  destruct (Hf a w1) as (sent2 & Hcalls2 & HP2).
  exists (sent1 ++ sent2). rewrite Hcalls2, Hcalls1, app_assoc.
  split; [reflexivity | apply Forall_app; auto].
Qed.

Lemma sendsOnly_request {A} (P : Call → Prop) (c : Call) (answer : list Call → A) :
  P c → sendsOnly P (request c answer).
Proof. intros Hc w. exists [c]. split; [reflexivity | repeat constructor; exact Hc]. Qed.

Lemma sendsOnly_mergeMaps (P : Call → Prop) (a b : mapref) : sendsOnly P (mergeMaps a b).
Proof.
  intros w. exists []. rewrite app_nil_r. split; [|constructor].
  destruct a as [l|].
  - destruct (mergeMaps_into_map l b w) as (w' & -> & Hcalls & _). exact Hcalls.
  - rewrite mergeMaps_into_nil. case_decide; reflexivity.
Qed.

Lemma sendsOnly_Metadata_existingLoop (P : Call → Prop) (i : nat) (ls : Secret)
    (existingSecrets newSecrets : list Secret) :
  sendsOnly P (Metadata.existingLoop i ls existingSecrets newSecrets).
Proof.
  induction existingSecrets as [|rs existingSecrets IH]; simpl.
  - apply sendsOnly_ret.
  - destruct (sameKey ls rs); [|exact IH].
    apply sendsOnly_bind; [apply sendsOnly_mergeMaps|]. intros a.
    apply sendsOnly_bind; [apply sendsOnly_mergeMaps|]. intros lb.
    apply sendsOnly_ret.
Qed.

Lemma sendsOnly_Metadata_newLoop (P : Call → Prop) (indices : list nat)
    (existingSecrets newSecrets : list Secret) :
  sendsOnly P (Metadata.newLoop indices existingSecrets newSecrets).
Proof.
  revert newSecrets. induction indices as [|i indices IH]; intros newSecrets; simpl.
  - apply sendsOnly_ret.
  - destruct (newSecrets !! i); [|apply sendsOnly_stop].
    apply sendsOnly_bind; [apply sendsOnly_Metadata_existingLoop | intros; apply IH].
Qed.

Lemma sendsOnly_listNamespaces (P : Call → Prop) (env : Env) (nsc : list string)
    (allSecrets : list Secret) :
  (∀ ns, P (CallList ns)) → sendsOnly P (listNamespaces env nsc allSecrets).
Proof.
  intros HP. revert allSecrets.
  induction nsc as [|ns nsc IH]; intros allSecrets; simpl.
  - apply sendsOnly_ret.
  - apply sendsOnly_bind.
    + unfold getSecrets. apply sendsOnly_bind; [apply sendsOnly_request, HP|].
      intros [items|e]; apply sendsOnly_ret.
    + intros [s|e]; [apply IH | apply sendsOnly_stop].
Qed.

Lemma patchData_metadataOnly (w : Wire) : metadataOnly (Metadata.patchData w).
Proof.
  unfold metadataOnly, Metadata.patchData.
  exists (Metadata.jsonOfMap (wAnnotations w)), (Metadata.jsonOfMap (wLabels w)).
  split; [reflexivity|].
  split; [destruct (wAnnotations w) | destruct (wLabels w)]; simpl; eauto.
Qed.

Lemma sendsOnly_patchSecretMetadata (env : Env) (secret : Secret) :
  sendsOnly maintenanceCall (Metadata.patchSecretMetadata env secret).
Proof.
  intros w. unfold Metadata.patchSecretMetadata, snapshot, request.
  rewrite !run_bind. cbn [calls store].
  exists [CallPatch (Namespace secret) (Name secret) (Metadata.patchData (wireOf w secret))].
  split.
  - destruct (onPatch _ _ _ _ _) as [e|]; [destruct (Contains e _)|]; reflexivity.
  - repeat constructor. apply patchData_metadataOnly.
Qed.

Lemma sendsOnly_updateK8sSecretsMetadata (env : Env) (secrets : list Secret) :
  sendsOnly maintenanceCall (Metadata.updateK8sSecretsMetadata env secrets).
Proof.
  induction secrets as [|secret secrets IH]; simpl.
  - apply sendsOnly_ret.
  - apply sendsOnly_bind; [apply sendsOnly_patchSecretMetadata|].
    intros [e|]; [apply sendsOnly_ret | exact IH].
Qed.

Lemma sendsOnly_Metadata_main (env : Env) : sendsOnly maintenanceCall (Metadata.main env).
Proof.
  unfold Metadata.main.
  destruct (Metadata.parseFilesAsSecrets _ _) as [sec|e]; [|apply sendsOnly_stop].
  apply sendsOnly_bind; [apply sendsOnly_listNamespaces; intros; exact I|].
  intros allSecrets. apply sendsOnly_bind.
  - unfold Metadata.updateSecretMetadata.
    apply sendsOnly_bind; [apply sendsOnly_Metadata_newLoop | intros; apply sendsOnly_ret].
  - intros [us [e|]]; [apply sendsOnly_stop|].
    apply sendsOnly_bind; [apply sendsOnly_updateK8sSecretsMetadata|].
    intros [e|]; [apply sendsOnly_stop | apply sendsOnly_ret].
Qed.

(** C6. In the maintenance mode, the metadata patch of a secret that the
    cluster reports as not found returns without error after that single
    Patch request.  Whatever its outcome, a run of the mode sends only List
    requests and Patch requests, so no Create, Delete, Update or Get; and
    the document of every Patch has the single member [metadata] with the
    two members [annotations] and [labels], so it never carries data. *)
Theorem maintenance_mode_only_patches_metadata (env : Env) :
  (∀ secret w e,
     onPatch (cluster env) (calls w) (Namespace secret) (Name secret)
       (Metadata.patchData (wireOf w secret)) = Some e →
     Contains e "not found" = true →
     Metadata.patchSecretMetadata env secret w
     = (Returned None,
        mkWorld (store w)
          (calls w ++ [CallPatch (Namespace secret) (Name secret)
                         (Metadata.patchData (wireOf w secret))])))
  ∧ (∀ w, ∃ sent, calls (Metadata.main env w).2 = calls w ++ sent
                  ∧ Forall maintenanceCall sent)
  ∧ (∀ wire, memberNames (Metadata.patchData wire) = ["metadata"]
             ∧ ∃ metadata, Metadata.patchData wire = JObject [("metadata", metadata)]
                           ∧ memberNames metadata = ["annotations"; "labels"]).
Proof.
  split; [|split].
  - intros secret w e Hpatch Hnf.
    unfold Metadata.patchSecretMetadata, snapshot, request.
    rewrite !run_bind. cbn [calls store]. rewrite Hpatch, Hnf. reflexivity.
  - apply sendsOnly_Metadata_main.
  - intros wire. split; [reflexivity|]. eexists. split; reflexivity.
Qed.

Lemma maintenance_mode_only_patches_metadata_witness :
  Metadata.patchSecretMetadata absentEnv exampleTemplate exampleWorld
  = (Returned None,
     mkWorld exampleStore
       ([] ++ [CallPatch "a" "s1" (Metadata.patchData (wireOf exampleWorld exampleTemplate))])).
Proof.
  apply (proj1 (maintenance_mode_only_patches_metadata absentEnv)
           exampleTemplate exampleWorld "secrets s1 not found").
  - reflexivity.
  - reflexivity.
Defined.

(** ** Comment stripping *)

Lemma append_cons (c : ascii) (s t : string) : String c s +:+ t = String c (s +:+ t).
Proof. reflexivity. Qed.

Lemma append_empty_r (s : string) : s +:+ "" = s.
Proof. induction s as [|c s IH]; [reflexivity|]. rewrite append_cons, IH. reflexivity. Qed.

Lemma append_assoc (s t u : string) : (s +:+ t) +:+ u = s +:+ (t +:+ u).
Proof.
  induction s as [|c s IH]; [reflexivity|]. rewrite !append_cons, IH. reflexivity.
Qed.

Lemma rev_app_append (s t : string) : String.rev_app s t = String.rev s +:+ t.
Proof.
  unfold String.rev. revert t. induction s as [|c s IH]; intros t; simpl; [reflexivity|].
  rewrite (IH (String c t)), (IH (String c "")), append_assoc. reflexivity.
Qed.

Lemma rev_cons (c : ascii) (s : string) :
  String.rev (String c s) = String.rev s +:+ String c "".
Proof. unfold String.rev at 1. simpl. apply rev_app_append. Qed.

Lemma rev_append (s t : string) : String.rev (s +:+ t) = String.rev t +:+ String.rev s.
Proof.
  induction s as [|c s IH].
  - change ("" +:+ t) with t. rewrite append_empty_r. reflexivity.
  - rewrite append_cons, !rev_cons, IH, append_assoc. reflexivity.
Qed.

Lemma rev_rev (s : string) : String.rev (String.rev s) = s.
Proof.
  induction s as [|c s IH]; [reflexivity|].
  rewrite rev_cons, rev_append, IH. reflexivity.
Qed.

(** Trimming removes a prefix. *)
Lemma trimFrom_suffix (width : string → nat) (s : string) :
  ∀ skip, ∃ dropped, s = dropped +:+ trimFrom width skip s.
Proof.
  induction s as [|c s IH]; intros skip; simpl.
  - exists "". reflexivity.
  - destruct skip as [|k].
    + destruct (width (String c s)) as [|k].
      * exists "". reflexivity.
      * destruct (IH k) as [dropped Hd]. exists (String c dropped).
        rewrite append_cons, <- Hd. reflexivity.
    + destruct (IH k) as [dropped Hd]. exists (String c dropped).
      rewrite append_cons, <- Hd. reflexivity.
Qed.

(** Trimming the end of a string never reaches a marker: the marker is no
    byte of a white-space character. *)
Lemma trimFrom_keeps_marker (n : nat) :
  ∀ r, (String.length r ≤ n)%nat →
       trimFrom trailingSpaceWidth 0 (r +:+ "#") ≠ "".
Proof.
  induction n as [|n IH]; intros r Hlen.
  - destruct r; [|simpl in Hlen; lia]. discriminate.
  - destruct r as [|c1 r1]; [discriminate|].
    rewrite append_cons. simpl in Hlen.
    cbn [trimFrom]. unfold trailingSpaceWidth.
    destruct (asciiSpace (N_of_ascii c1)); [apply IH; lia|].
    destruct r1 as [|c2 r2].
    + change ("" +:+ "#") with "#".
      cbn. destruct c1 as [[] [] [] [] [] [] [] []]; discriminate.
    + rewrite append_cons. simpl in Hlen.
      destruct (space2 (N_of_ascii c2) (N_of_ascii c1)); [cbn [trimFrom]; apply IH; lia|].
      destruct r2 as [|c3 r3].
      * change ("" +:+ "#") with "#".
        replace (space3 (N_of_ascii "#") (N_of_ascii c2) (N_of_ascii c1)) with false;
          [discriminate|].
        reflexivity.
      * rewrite append_cons. simpl in Hlen.
        destruct (space3 (N_of_ascii c3) (N_of_ascii c2) (N_of_ascii c1));
          [cbn [trimFrom]; apply IH; lia | discriminate].
Qed.

Lemma HasPrefix_marker (s : string) :
  HasPrefix s "#" = match s with
                    | "" => false
                    | String c _ => Ascii.eqb c "#"
                    end.
Proof.
  destruct s as [|c s]; [reflexivity|]. simpl.
  destruct (Ascii.eqb c "#"); [destruct s|]; reflexivity.
Qed.

(** Trimming the end does not change whether a string begins with the
    marker. *)
Lemma HasPrefix_TrimRightSpace (s : string) :
  HasPrefix (TrimRightSpace s) "#" = HasPrefix s "#".
Proof.
  unfold TrimRightSpace.
  destruct (trimFrom_suffix trailingSpaceWidth (String.rev s) 0) as [dropped Hd].
  set (kept := trimFrom trailingSpaceWidth 0 (String.rev s)) in *.
  assert (s = String.rev kept +:+ String.rev dropped) as Hs.
  { rewrite <- rev_append, <- Hd, rev_rev. reflexivity. }
  destruct (String.rev kept) as [|c k] eqn:Hk.
  - assert (kept = "") as Hkept by (rewrite <- (rev_rev kept), Hk; reflexivity).
    rewrite !HasPrefix_marker. destruct s as [|c s']; [reflexivity|].
    destruct (Ascii.eqb_spec c "#") as [->|]; [|reflexivity].
    exfalso. subst kept. rewrite rev_cons in Hkept.
    exact (trimFrom_keeps_marker _ _ (le_n _) Hkept).
  - rewrite Hs, append_cons, !HasPrefix_marker. reflexivity.
Qed.

Lemma HasPrefix_TrimSpace (line : string) :
  HasPrefix (TrimSpace line) "#" = true ↔ commentLine line.
Proof. unfold TrimSpace, commentLine. rewrite HasPrefix_TrimRightSpace. reflexivity. Qed.

Lemma Metadata_keepLines_filter (lines result : list string) :
  Metadata.keepLines lines result
  = result ++ filter (fun line => ¬ commentLine line) lines.
Proof.
  revert result. induction lines as [|line lines IH]; intros result; simpl.
  - rewrite filter_nil, app_nil_r. reflexivity.
  - destruct (HasPrefix (TrimSpace line) "#") eqn:Hp; simpl.
    + apply HasPrefix_TrimSpace in Hp.
      rewrite IH, filter_cons_False by tauto. reflexivity.
    + assert (¬ commentLine line) as Hn
        by (rewrite <- HasPrefix_TrimSpace, Hp; discriminate).
      rewrite IH, filter_cons_True, <- app_assoc by exact Hn. reflexivity.
Qed.

Lemma Main_keepLines_filter (lines result : list string) :
  Main.keepLines lines result
  = result ++ filter (fun line => HasPrefix line "#" ≠ true) lines.
Proof.
  revert result. induction lines as [|line lines IH]; intros result; simpl.
  - rewrite filter_nil, app_nil_r. reflexivity.
  - destruct (HasPrefix line "#") eqn:Hp.
    + rewrite IH, filter_cons_False by (rewrite Hp; tauto). reflexivity.
    + rewrite IH, filter_cons_True, <- app_assoc by (rewrite Hp; discriminate).
      reflexivity.
Qed.

(** The comment stripping of the maintenance mode does what is specified:
    it removes the lines that begin with the marker after leading white
    space, and keeps the others as they are and in order. *)
Lemma Metadata_removeComments_lines (content : string) :
  Metadata.removeComments content
  = Join (filter (fun line => ¬ commentLine line) (Split content LF)) LF.
Proof. unfold Metadata.removeComments. rewrite Metadata_keepLines_filter. reflexivity. Qed.

(** That of [src/main.go] removes only the lines whose very first character
    is the marker. *)
Lemma Main_removeComments_lines (doc : string) :
  Main.removeComments doc
  = Join (filter (fun line => HasPrefix line "#" ≠ true) (Split doc LF)) LF.
Proof. unfold Main.removeComments. rewrite Main_keepLines_filter. reflexivity. Qed.

(** C9 (the code of [src/main.go] fails it). The second line of
    [exampleDoc] is a comment line: its first character that is not white
    space is the marker.  The comment stripping of [src/main.go] keeps it
    and removes only the third line; that of the maintenance mode removes
    both.  Both keep the last line with its trailing comment. *)
Theorem Main_removeComments_keeps_indented_comment :
  Split exampleDoc LF
  = ["kind: Secret"; "  # filled in by the operator"; "# template"; "name: s1 # keep"]
  ∧ commentLine "  # filled in by the operator"
  ∧ Main.removeComments exampleDoc
    = "kind: Secret" +:+ LF +:+ "  # filled in by the operator" +:+ LF
      +:+ "name: s1 # keep"
  ∧ Metadata.removeComments exampleDoc
    = "kind: Secret" +:+ LF +:+ "name: s1 # keep".
Proof. repeat split; vm_compute; reflexivity. Qed.

(** ** The scenarios of the specification, end to end *)

(** [src/main.go]: the two namespaces are listed in first-seen order, the
    matched template is applied by one Update of the live secret with the
    merged labels, the unmatched one by one Create as it is. *)
Example Main_main_scenario :
  Main.main scenarioEnv exampleWorld
  = (Returned tt,
     mkWorld (store exampleMerged)
       [CallList "a"; CallList "b";
        CallUpdate "a" (mkWire exampleLive (Some {[ "x" := "1"; "y" := "2" ]}) None);
        CallCreate "b" (mkWire exampleUnmatched None None)]).
Proof. vm_compute. reflexivity. Qed.

(** The maintenance mode on the same input: two List requests and two
    Patch requests of metadata. *)
Example Metadata_main_scenario :
  ∃ w', Metadata.main scenarioEnv exampleWorld = (Returned tt, w')
        ∧ calls w'
          = [CallList "a"; CallList "b";
             CallPatch "a" "s1"
               (JObject [("metadata",
                          JObject [("annotations", JNull);
                                   ("labels", JStringMap {[ "x" := "1"; "y" := "2" ]})])]);
             CallPatch "b" "s2"
               (JObject [("metadata",
                          JObject [("annotations", JNull); ("labels", JNull)])])].
Proof. eexists. split; vm_compute; reflexivity. Qed.

(** * Further properties of the programs *)

(** ** Reading the template directory *)

(** X1. [getSecretFiles] returns the entries of the directory that are not
    directories, in the order of the listing, each joined to the directory
    path; it does not descend into sub-directories, and an unreadable
    directory gives no file. *)
Theorem getSecretFiles_regular_entries (env : Env) (dir : string) :
  getSecretFiles env dir =
  match ReadDir env dir with
  | inl files =>
      map (fun file => pathJoin env dir (entryName file))
          (filter (fun file => entryIsDir file = false) files)
  | inr _ => []
  end.
Proof.
  unfold getSecretFiles. destruct (ReadDir env dir) as [files|e]; [|reflexivity].
  match goal with |- ?loop files [] = _ => set (go := loop) end.
  enough (∀ secretFiles,
            go files secretFiles
            = secretFiles ++ map (fun file => pathJoin env dir (entryName file))
                                 (filter (fun file => entryIsDir file = false) files))
    as H by apply (H []).
  induction files as [|file files IH]; intros secretFiles.
  - rewrite filter_nil. simpl. rewrite app_nil_r. reflexivity.
  - simpl. destruct (entryIsDir file) eqn:Hdir; simpl.
    + rewrite IH, filter_cons_False by congruence. reflexivity.
    + rewrite IH, filter_cons_True by assumption. simpl.
      rewrite <- app_assoc. reflexivity.
Qed.

(** ** Parsing *)

Lemma decodeDocs_result (env : Env) (prepare : string → option string)
    (docs : list string) (secrets : list Secret) :
  match decodeDocs env prepare docs secrets with
  | inl result =>
      result = secrets ++ (docs ≫= docSecrets env prepare)
      ∧ ∀ doc doc', doc ∈ docs → prepare doc = Some doc' → ¬ badDocument env doc'
  | inr _ => ∃ doc doc', doc ∈ docs ∧ prepare doc = Some doc' ∧ badDocument env doc'
  end.
Proof.
  revert secrets. induction docs as [|d docs IH]; intros secrets.
  - simpl. split; [rewrite app_nil_r; reflexivity|]. intros doc doc' H. inversion H.
  - simpl. change ((d :: docs) ≫= docSecrets env prepare)
      with (docSecrets env prepare d ++ (docs ≫= docSecrets env prepare)).
    set (rest := docs ≫= docSecrets env prepare) in *.
    unfold docSecrets.
    assert (∀ secrets' extra (good : ∀ doc', prepare d = Some doc' → ¬ badDocument env doc'),
              match decodeDocs env prepare docs secrets' with
              | inl result =>
                  result = secrets' ++ rest
                  ∧ ∀ doc doc', doc ∈ docs → prepare doc = Some doc' →
                                ¬ badDocument env doc'
              | inr _ => ∃ doc doc', doc ∈ docs ∧ prepare doc = Some doc'
                                     ∧ badDocument env doc'
              end →
              secrets' = secrets ++ extra →
              match decodeDocs env prepare docs secrets' with
              | inl result =>
                  result = secrets ++ extra ++ rest
                  ∧ ∀ doc doc', doc ∈ d :: docs → prepare doc = Some doc' →
                                ¬ badDocument env doc'
              | inr _ => ∃ doc doc', doc ∈ d :: docs ∧ prepare doc = Some doc'
                                     ∧ badDocument env doc'
              end) as Hstep.
    { intros secrets' extra good Hrest ->.
      destruct (decodeDocs env prepare docs (secrets ++ extra)) as [result|e].
      - destruct Hrest as [-> Hgood]. split; [rewrite app_assoc; reflexivity|].
        intros doc doc' [->|Hin]%elem_of_cons Hprep; [apply good, Hprep | eauto].
      - destruct Hrest as (doc & doc' & Hin & Hprep & Hbad).
        exists doc, doc'. split; [right; exact Hin | auto]. }
    destruct (prepare d) as [d'|] eqn:Hd.
    + destruct (Decode env d') as [object|e] eqn:Hdec.
      * destruct (isSecretGVK (objGVK object)) eqn:Hgvk.
        -- destruct (objSecret object) as [s|] eqn:Hsec.
           ++ apply (Hstep (secrets ++ [s]) [s]); [|apply IH|reflexivity].
              intros doc' [= <-] [[e He]|(o & Ho & _ & Hnone)]; congruence.
           ++ exists d, d'. split; [left|]. split; [exact Hd|].
              right. exists object. auto.
        -- apply (Hstep secrets []); [|apply IH|rewrite app_nil_r; reflexivity].
           intros doc' [= <-] [[e He]|(o & Ho & Hk & _)]; congruence.
      * exists d, d'. split; [left|]. split; [exact Hd|]. left. eauto.
    + apply (Hstep secrets []); [|apply IH|rewrite app_nil_r; reflexivity].
      intros doc' Hprep. discriminate.
Qed.

(** The three parsers by induction on the files: the accumulated secrets
    grow by what each file contributes, and a failure is witnessed by a
    file in error. *)
Ltac parseFiles_result env docsOf prepare :=
  let files := fresh "files" in
  let file := fresh "file" in
  let IH := fresh "IH" in
  let secrets := fresh "secrets" in
  intros files; induction files as [|file files IH]; intros secrets;
  [ simpl; split; [rewrite app_nil_r; reflexivity|]; intros f H; inversion H
  | simpl;
    change ((file :: files) ≫= fileSecrets env docsOf prepare)
      with (fileSecrets env docsOf prepare file
            ++ (files ≫= fileSecrets env docsOf prepare));
    unfold fileSecrets at 1, badFile;
    destruct (ReadFile env file) as [fd|e] eqn:Hfd;
    [ pose proof (decodeDocs_result env prepare (docsOf fd) secrets) as Hdocs;
      simpl in Hdocs |- *;
      match goal with
      | |- context [decodeDocs env prepare ?docs secrets] =>
          destruct (decodeDocs env prepare docs secrets) as [secrets'|e]
      end;
      [ destruct Hdocs as [-> Hgood];
        specialize (IH (secrets ++ (docsOf fd ≫= docSecrets env prepare)));
        match goal with
        | |- match ?run with _ => _ end =>
            destruct run as [result|e]
        end;
        [ destruct IH as [-> Hfiles]; split; [rewrite app_assoc; reflexivity|];
          intros f [->|Hin]%elem_of_cons;
          [ intros [[e He]|(fd' & doc & doc' & Hfd' & Hdoc & Hprep & Hbad)];
            [ congruence
            | rewrite Hfd in Hfd'; injection Hfd' as <-;
              exact (Hgood doc doc' Hdoc Hprep Hbad) ]
          | apply Hfiles, Hin ]
        | destruct IH as (f & Hin & Hbad); exists f; split; [right; exact Hin | exact Hbad] ]
      | destruct Hdocs as (doc & doc' & Hdoc & Hprep & Hbad);
        exists file; split; [left|]; right; exists fd, doc, doc'; auto ]
    | exists file; split; [left|]; left; eauto ] ].

Lemma Main_parseFiles_result (env : Env) :
  ∀ (files : list string) (secrets : list Secret),
    match Main.parseFiles env files secrets with
    | inl result =>
        result = secrets
                 ++ (files ≫= fileSecrets env (fun fd => Split fd "---") Main.prepareDoc)
        ∧ ∀ file, file ∈ files →
                  ¬ badFile env (fun fd => Split fd "---") Main.prepareDoc file
    | inr _ =>
        ∃ file, file ∈ files
                ∧ badFile env (fun fd => Split fd "---") Main.prepareDoc file
    end.
Proof. parseFiles_result env (fun fd => Split fd "---") Main.prepareDoc. Qed.

Lemma Metadata_parseFiles_result (env : Env) :
  ∀ (files : list string) (secrets : list Secret),
    match Metadata.parseFiles env files secrets with
    | inl result =>
        result = secrets
                 ++ (files ≫= fileSecrets env
                                (fun fd => Split (Metadata.removeComments fd) "---")
                                Metadata.prepareDoc)
        ∧ ∀ file, file ∈ files →
                  ¬ badFile env (fun fd => Split (Metadata.removeComments fd) "---")
                      Metadata.prepareDoc file
    | inr _ =>
        ∃ file, file ∈ files
                ∧ badFile env (fun fd => Split (Metadata.removeComments fd) "---")
                    Metadata.prepareDoc file
    end.
Proof.
  parseFiles_result env (fun fd => Split (Metadata.removeComments fd) "---")
                    Metadata.prepareDoc.
Qed.

Lemma Legacy_parseFiles_result (env : Env) :
  ∀ (files : list string) (secrets : list Secret),
    match Legacy.parseFiles env files secrets with
    | inl result =>
        result = secrets
                 ++ (files ≫= fileSecrets env (fun fd => Split fd "---") Legacy.prepareDoc)
        ∧ ∀ file, file ∈ files →
                  ¬ badFile env (fun fd => Split fd "---") Legacy.prepareDoc file
    | inr _ =>
        ∃ file, file ∈ files
                ∧ badFile env (fun fd => Split fd "---") Legacy.prepareDoc file
    end.
Proof. parseFiles_result env (fun fd => Split fd "---") Legacy.prepareDoc. Qed.

(** X2. Each of the three parsers either fails, and then some file is in
    error (it cannot be read, or one of its documents that reaches the
    decoder does not decode or is of the Secret kind without being a secret
    object), or succeeds, and then no file is in error and the result is, in
    the order of the files and within a file in the order of its documents,
    the secrets of the documents of the Secret kind; blank documents and
    documents of another kind contribute nothing.  The programs differ in
    the documents of a file: [src/main.go] splits the file and strips the
    comment lines of each piece, the maintenance mode strips the comment
    lines of the file and then splits it, [src/unnamed/part_001] only
    splits. *)
Theorem parseFilesAsSecrets_result (env : Env) (files : list string) :
  match Main.parseFilesAsSecrets env files with
  | inl secrets =>
      secrets = files ≫= fileSecrets env (fun fd => Split fd "---") Main.prepareDoc
      ∧ ∀ file, file ∈ files →
                ¬ badFile env (fun fd => Split fd "---") Main.prepareDoc file
  | inr _ =>
      ∃ file, file ∈ files ∧ badFile env (fun fd => Split fd "---") Main.prepareDoc file
  end
  ∧ match Metadata.parseFilesAsSecrets env files with
    | inl secrets =>
        secrets = files ≫= fileSecrets env
                             (fun fd => Split (Metadata.removeComments fd) "---")
                             Metadata.prepareDoc
        ∧ ∀ file, file ∈ files →
                  ¬ badFile env (fun fd => Split (Metadata.removeComments fd) "---")
                      Metadata.prepareDoc file
    | inr _ =>
        ∃ file, file ∈ files
                ∧ badFile env (fun fd => Split (Metadata.removeComments fd) "---")
                    Metadata.prepareDoc file
    end
  ∧ match Legacy.parseFilesAsSecrets env files with
    | inl secrets =>
        secrets = files ≫= fileSecrets env (fun fd => Split fd "---") Legacy.prepareDoc
        ∧ ∀ file, file ∈ files →
                  ¬ badFile env (fun fd => Split fd "---") Legacy.prepareDoc file
    | inr _ =>
        ∃ file, file ∈ files
                ∧ badFile env (fun fd => Split fd "---") Legacy.prepareDoc file
    end.
Proof.
  split; [|split].
  - exact (Main_parseFiles_result env files []).
  - exact (Metadata_parseFiles_result env files []).
  - exact (Legacy_parseFiles_result env files []).
Qed.

(** ** Lines of a document *)

Lemma HasPrefix_empty (s : string) : HasPrefix s "" = true.
Proof. destruct s; reflexivity. Qed.

Lemma Split_LF_cons (c : ascii) (s : string) :
  Split (String c s) LF =
  if Ascii.eqb c "010"
  then "" :: Split s LF
  else match Split s LF with
       | [] => [String c ""]
       | piece :: pieces => String c piece :: pieces
       end.
Proof.
  unfold Split, LF. cbn [splitFrom HasPrefix].
  destruct (Ascii.eqb c "010"); [rewrite HasPrefix_empty|]; reflexivity.
Qed.

Lemma Split_LF_nonempty (s : string) : Split s LF ≠ [].
Proof.
  destruct s as [|c s]; [discriminate|]. rewrite Split_LF_cons.
  destruct (Ascii.eqb c "010"); [discriminate|]. destruct (Split s LF); discriminate.
Qed.

Lemma Join_cons_char (c : ascii) (piece : string) (pieces : list string) (sep : string) :
  Join (String c piece :: pieces) sep = String c (Join (piece :: pieces) sep).
Proof. destruct pieces; reflexivity. Qed.

(** Joining the lines of a document gives the document back. *)
Lemma Join_Split_LF (s : string) : Join (Split s LF) LF = s.
Proof.
  induction s as [|c s IH]; [reflexivity|]. rewrite Split_LF_cons.
  pose proof (Split_LF_nonempty s) as Hne.
  destruct (Ascii.eqb_spec c "010") as [->|Hc].
  - destruct (Split s LF) as [|piece pieces]; [contradiction|].
    change (Join ("" :: piece :: pieces) LF) with (LF +:+ Join (piece :: pieces) LF).
    rewrite IH. reflexivity.
  - destruct (Split s LF) as [|piece pieces]; [contradiction|].
    rewrite Join_cons_char, IH. reflexivity.
Qed.

(** A line without line feed is its own single line, and splitting a
    line followed by a line feed and a rest yields the line and the lines of
    the rest. *)
Lemma Split_LF_line (line : string) :
  Contains line LF = false → Split line LF = [line].
Proof.
  induction line as [|c line IH]; [reflexivity|].
  intros Hc. rewrite Split_LF_cons. unfold LF in Hc. cbn [Contains HasPrefix] in Hc.
  destruct (Ascii.eqb c "010").
  - rewrite HasPrefix_empty in Hc. discriminate.
  - rewrite (IH Hc). reflexivity.
Qed.

Lemma Split_LF_append (line rest : string) :
  Contains line LF = false →
  Split (line +:+ LF +:+ rest) LF = line :: Split rest LF.
Proof.
  induction line as [|c line IH]; intros Hc.
  - change ("" +:+ LF +:+ rest) with (String "010" rest).
    rewrite Split_LF_cons. reflexivity.
  - rewrite append_cons, Split_LF_cons. unfold LF in Hc. cbn [Contains HasPrefix] in Hc.
    destruct (Ascii.eqb c "010").
    + rewrite HasPrefix_empty in Hc. discriminate.
    + rewrite (IH Hc). reflexivity.
Qed.

Lemma Split_LF_lines (s line : string) :
  line ∈ Split s LF → Contains line LF = false.
Proof.
  revert line. induction s as [|c s IH]; intros line.
  - intros ->%list_elem_of_singleton. reflexivity.
  - rewrite Split_LF_cons. pose proof (Split_LF_nonempty s) as Hne.
    destruct (Ascii.eqb c "010") eqn:Hc.
    + intros [->|Hin]%elem_of_cons; [reflexivity | apply IH, Hin].
    + destruct (Split s LF) as [|piece pieces]; [contradiction|].
      intros [->|Hin]%elem_of_cons; [|apply IH; right; exact Hin].
      unfold LF. cbn [Contains HasPrefix]. rewrite Hc.
      apply (IH piece). left.
Qed.

Lemma Split_Join_LF (lines : list string) :
  lines ≠ [] → (∀ line, line ∈ lines → Contains line LF = false) →
  Split (Join lines LF) LF = lines.
Proof.
  induction lines as [|line lines IH]; [contradiction|]. intros _ Hlines.
  destruct lines as [|line2 lines].
  - apply Split_LF_line, Hlines. left.
  - change (Join (line :: line2 :: lines) LF)
      with (line +:+ LF +:+ Join (line2 :: lines) LF).
    rewrite Split_LF_append by (apply Hlines; left).
    rewrite IH; [reflexivity | discriminate |].
    intros l Hl. apply Hlines. right. exact Hl.
Qed.

(** Keeping the lines that satisfy [keep], a property the empty line has:
    doing it twice is doing it once, and every line left satisfies [keep]. *)
Lemma keep_lines_idempotent (keep : string → Prop) `{!∀ line, Decision (keep line)}
    (doc : string) :
  keep "" →
  let strip := fun doc => Join (filter keep (Split doc LF)) LF in
  strip (strip doc) = strip doc
  ∧ ∀ line, line ∈ Split (strip doc) LF → keep line.
Proof.
  intros Hempty strip. unfold strip.
  destruct (filter keep (Split doc LF)) as [|line lines] eqn:Hkept.
  - change (Join [] LF) with "". change (Split "" LF) with [""].
    rewrite filter_cons_True by exact Hempty.
    split; [reflexivity|]. intros line ->%list_elem_of_singleton. exact Hempty.
  - assert (∀ l, l ∈ line :: lines → keep l ∧ Contains l LF = false) as Hall.
    { intros l Hl. rewrite <- Hkept in Hl. apply list_elem_of_filter in Hl as [Hk Hin].
      split; [exact Hk | exact (Split_LF_lines _ _ Hin)]. }
    rewrite Split_Join_LF; [|discriminate | intros l Hl; apply Hall, Hl].
    rewrite filter_all by (apply Forall_forall; intros l Hl; apply Hall, Hl).
    split; [reflexivity|]. intros l Hl. apply Hall, Hl.
Qed.

(** ** Comment stripping, continued *)

(** A line that starts with the marker is a comment line: what
    [src/main.go] strips, the maintenance mode strips too. *)
Lemma HasPrefix_commentLine (line : string) :
  HasPrefix line "#" = true → commentLine line.
Proof.
  unfold commentLine, TrimLeftSpace. rewrite HasPrefix_marker.
  destruct line as [|c line]; [discriminate|].
  intros ->%Ascii.eqb_eq.
  destruct line as [|c2 [|c3 line]]; reflexivity.
Qed.

(** X3. Comment stripping is idempotent in [src/main.go] and in the
    maintenance mode, and what it returns has no line left that it would
    strip: no line starting with the marker in [src/main.go], no comment
    line (marker after leading white space) in the maintenance mode. *)
Theorem removeComments_idempotent (doc : string) :
  Main.removeComments (Main.removeComments doc) = Main.removeComments doc
  ∧ (∀ line, line ∈ Split (Main.removeComments doc) LF → HasPrefix line "#" = false)
  ∧ Metadata.removeComments (Metadata.removeComments doc) = Metadata.removeComments doc
  ∧ (∀ line, line ∈ Split (Metadata.removeComments doc) LF → ¬ commentLine line).
Proof.
  destruct (keep_lines_idempotent (fun line => HasPrefix line "#" ≠ true) doc)
    as [HidemMain HkeptMain]; [discriminate|].
  destruct (keep_lines_idempotent (fun line => ¬ commentLine line) doc)
    as [HidemMeta HkeptMeta]; [discriminate|].
  rewrite !Main_removeComments_lines, !Metadata_removeComments_lines.
  split; [exact HidemMain|]. split; [|split; [exact HidemMeta | exact HkeptMeta]].
  intros line Hline. apply not_true_is_false, HkeptMain, Hline.
Qed.

(** X4. A document without comment lines is returned unchanged by the
    comment stripping of both programs, line feeds included. *)
Theorem removeComments_without_comments (doc : string) :
  (∀ line, line ∈ Split doc LF → ¬ commentLine line) →
  Main.removeComments doc = doc ∧ Metadata.removeComments doc = doc.
Proof.
  intros Hnone.
  rewrite Main_removeComments_lines, Metadata_removeComments_lines.
  rewrite !filter_all, Join_Split_LF; [auto | |]; apply Forall_forall; intros line Hline.
  - apply Hnone, Hline.
  - intros Hp. apply (Hnone line Hline), HasPrefix_commentLine, Hp.
Qed.

Lemma removeComments_without_comments_witness :
  Main.removeComments ("kind: Secret" +:+ LF +:+ "name: s1 # keep" +:+ LF)
  = "kind: Secret" +:+ LF +:+ "name: s1 # keep" +:+ LF
  ∧ Metadata.removeComments ("kind: Secret" +:+ LF +:+ "name: s1 # keep" +:+ LF)
    = "kind: Secret" +:+ LF +:+ "name: s1 # keep" +:+ LF.
Proof.
  apply (removeComments_without_comments
           ("kind: Secret" +:+ LF +:+ "name: s1 # keep" +:+ LF)).
  intros line Hline.
  change (line ∈ ["kind: Secret"; "name: s1 # keep"; ""]) in Hline.
  apply list_elem_of_In in Hline. simpl in Hline.
  destruct Hline as [<-|[<-|[<-|[]]]]; vm_compute; discriminate.
Defined.

Lemma filter_none {A} (P : A → Prop) `{!∀ x, Decision (P x)} (l : list A) :
  (∀ x, x ∈ l → ¬ P x) → filter P l = [].
Proof.
  induction l as [|x l IH]; intros Hnone; [reflexivity|].
  rewrite filter_cons_False by (apply Hnone; left).
  apply IH. intros y Hy. apply Hnone. right. exact Hy.
Qed.

(** X5. In [src/main.go] a document all of whose lines start with the
    marker is skipped: it is not handed to the decoder, so it can neither
    fail the parse nor contribute a secret. *)
Theorem Main_prepareDoc_skips_comments (env : Env) (doc : string) :
  (∀ line, line ∈ Split doc LF → HasPrefix line "#" = true) →
  Main.prepareDoc doc = None
  ∧ docSecrets env Main.prepareDoc doc = []
  ∧ ∀ secrets, decodeDocs env Main.prepareDoc [doc] secrets = inl secrets.
Proof.
  intros Hall.
  assert (Main.prepareDoc doc = None) as Hskip.
  { unfold Main.prepareDoc. destruct (isBlank doc); [reflexivity|].
    rewrite Main_removeComments_lines.
    replace (filter (fun line => HasPrefix line "#" ≠ true) (Split doc LF)) with (@nil string);
      [reflexivity|].
    symmetry. apply filter_none. intros line Hin Hline. apply Hline, Hall, Hin. }
  split; [exact Hskip|]. unfold docSecrets. simpl. rewrite Hskip. auto.
Qed.

Lemma Main_prepareDoc_skips_comments_witness :
  Main.prepareDoc ("# managed by the operator" +:+ LF +:+ "# do not edit") = None
  ∧ docSecrets brokenFileEnv Main.prepareDoc
      ("# managed by the operator" +:+ LF +:+ "# do not edit") = []
  ∧ ∀ secrets,
      decodeDocs brokenFileEnv Main.prepareDoc
        ["# managed by the operator" +:+ LF +:+ "# do not edit"] secrets = inl secrets.
Proof.
  apply (Main_prepareDoc_skips_comments brokenFileEnv
           ("# managed by the operator" +:+ LF +:+ "# do not edit")).
  intros line Hline.
  change (line ∈ ["# managed by the operator"; "# do not edit"]) in Hline.
  apply list_elem_of_In in Hline. simpl in Hline.
  destruct Hline as [<-|[<-|[]]]; reflexivity.
Defined.

(** ** The appliers *)

Lemma ensureCreateSecret_run (env : Env) (secret : Secret) (w : World) :
  Main.ensureCreateSecret env secret w =
  match firstAnswer env w secret with
  | None =>
      (Returned (secret, None), mkWorld (store w) (calls w ++ [firstRequest w secret]))
  | Some _ =>
      Main.deleteRecreateSecret env secret
        (mkWorld (store w) (calls w ++ [firstRequest w secret]))
  end.
Proof.
  unfold Main.ensureCreateSecret, firstAnswer, firstRequest, snapshot, request.
  destruct (String.eqb (UID secret) EmptyString); cbn [negb];
    rewrite !run_bind; cbn [calls store].
  - destruct (onCreate _ _ _ _); reflexivity.
  - destruct (onUpdate _ _ _ _); reflexivity.
Qed.

(** X6. The applier of [src/main.go] always returns for a secret: it
    neither panics nor exits, and it leaves the maps alone.  It sends one
    first request, a Create for a secret without UID and an Update
    otherwise, followed by an initial part of Get, Delete, Create of the
    cleared secret, which is empty when the first request succeeded; the
    secret is left as it was or cleared. *)
Theorem ensureCreateSecret_requests (env : Env) (secret : Secret) (w : World) :
  ∃ secret' err sent,
    Main.ensureCreateSecret env secret w
    = (Returned (secret', err),
       mkWorld (store w) (calls w ++ firstRequest w secret :: sent))
    ∧ sent `prefix_of` recreateRequests w secret
    ∧ (firstAnswer env w secret = None → sent = [] ∧ secret' = secret ∧ err = None)
    ∧ (firstAnswer env w secret ≠ None → secret' = Main.clearIdentity secret).
Proof.
  rewrite ensureCreateSecret_run.
  destruct (firstAnswer env w secret) as [e|].
  - rewrite deleteRecreateSecret_run. cbn [calls store].
    unfold recreateRequests.
    destruct (onGet _ _ _ _) as [e1|]; [|destruct (onDelete _ _ _ _) as [e2|]].
    + rewrite <- !app_assoc. eexists _, _, [_]. split; [reflexivity|].
      split; [eexists; reflexivity|]. split; [discriminate | reflexivity].
    + rewrite <- !app_assoc. eexists _, _, [_; _]. split; [reflexivity|].
      split; [eexists; reflexivity|]. split; [discriminate | reflexivity].
    + rewrite <- !app_assoc. eexists _, _, [_; _; _]. split; [reflexivity|].
      split; [exists []; reflexivity|]. split; [discriminate | reflexivity].
  - exists secret, None, []. split; [reflexivity|].
    split; [apply prefix_nil|]. split; [auto | congruence].
Qed.

(** X7. When the applier of [src/main.go] reports no error for a secret,
    the cluster accepted a write of it as the last request: either the first
    request, or, after a failed first request, a Get and a Delete that both
    succeeded, the Create of the cleared secret. *)
Theorem ensureCreateSecret_nil_accepted
    (env : Env) (secret secret' : Secret) (w w' : World) :
  Main.ensureCreateSecret env secret w = (Returned (secret', None), w') →
  store w' = store w
  ∧ ((firstAnswer env w secret = None ∧ secret' = secret
      ∧ calls w' = calls w ++ [firstRequest w secret])
     ∨ (firstAnswer env w secret ≠ None ∧ secret' = Main.clearIdentity secret
        ∧ calls w' = calls w ++ firstRequest w secret :: recreateRequests w secret
        ∧ onCreate (cluster env)
            (calls w ++ [firstRequest w secret;
                         CallGet (Namespace secret) (Name secret);
                         CallDelete (Namespace secret) (Name secret)])
            (Namespace secret) (wireOf w (Main.clearIdentity secret)) = None)).
Proof.
  rewrite ensureCreateSecret_run.
  destruct (firstAnswer env w secret) as [e|].
  - rewrite deleteRecreateSecret_run. cbn [calls store].
    destruct (onGet _ _ _ _) as [e1|]; [discriminate|].
    destruct (onDelete _ _ _ _) as [e2|]; [discriminate|].
    rewrite <- !app_assoc. cbn [app].
    intros [= <- Hcreate <-]. split; [reflexivity|]. right.
    split; [discriminate|]. split; [reflexivity|]. split; [reflexivity | exact Hcreate].
  - intros [= <- <-]. split; [reflexivity|]. left. auto.
Qed.

Lemma ensureCreateSecret_nil_accepted_witness :
  store exampleWorld = store exampleWorld
  ∧ ((firstAnswer scenarioEnv exampleWorld exampleLive = None
      ∧ exampleLive = exampleLive
      ∧ calls (mkWorld exampleStore [CallUpdate "a" (wireOf exampleWorld exampleLive)])
        = calls exampleWorld ++ [firstRequest exampleWorld exampleLive])
     ∨ (firstAnswer scenarioEnv exampleWorld exampleLive ≠ None
        ∧ exampleLive = Main.clearIdentity exampleLive
        ∧ calls (mkWorld exampleStore [CallUpdate "a" (wireOf exampleWorld exampleLive)])
          = calls exampleWorld
            ++ firstRequest exampleWorld exampleLive
               :: recreateRequests exampleWorld exampleLive
        ∧ onCreate (cluster scenarioEnv)
            (calls exampleWorld
             ++ [firstRequest exampleWorld exampleLive; CallGet "a" "s1";
                 CallDelete "a" "s1"])
            "a" (wireOf exampleWorld (Main.clearIdentity exampleLive)) = None)).
Proof.
  apply (ensureCreateSecret_nil_accepted scenarioEnv exampleLive exampleLive exampleWorld
           (mkWorld exampleStore [CallUpdate "a" (wireOf exampleWorld exampleLive)])).
  vm_compute. reflexivity.
Defined.

Lemma updateK8sSecrets_app (env : Env) (secrets1 secrets2 : list Secret) (w : World) :
  Main.updateK8sSecrets env (secrets1 ++ secrets2) w =
  match Main.updateK8sSecrets env secrets1 w with
  | (Returned None, w1) => Main.updateK8sSecrets env secrets2 w1
  | other => other
  end.
Proof.
  revert w. induction secrets1 as [|secret secrets1 IH]; intros w; [reflexivity|].
  simpl. rewrite !run_bind.
  destruct (Main.ensureCreateSecret env secret w) as [[[secret' [e|]]| |status] w1];
    try reflexivity.
  apply IH.
Qed.

(** X8. The applier loop of [src/main.go] is fail-fast: when the secrets
    before a secret were applied without error and that secret's application
    reports an error, the loop returns this error in the state that
    application left, and sends nothing for the secrets after it. *)
Theorem updateK8sSecrets_stops_at_first_error
    (env : Env) (before after : list Secret) (secret secret' : Secret)
    (e : error) (w w1 w2 : World) :
  Main.updateK8sSecrets env before w = (Returned None, w1) →
  Main.ensureCreateSecret env secret w1 = (Returned (secret', Some e), w2) →
  Main.updateK8sSecrets env (before ++ secret :: after) w = (Returned (Some e), w2).
Proof.
  intros Hbefore Hsecret. rewrite updateK8sSecrets_app, Hbefore.
  simpl. rewrite run_bind, Hsecret. reflexivity.
Qed.

Lemma updateK8sSecrets_stops_at_first_error_witness :
  Main.updateK8sSecrets exampleEnv ([exampleUnmatched] ++ exampleLive :: [exampleTemplate])
    exampleWorld
  = (Returned (Some "delete forbidden"),
     mkWorld exampleStore
       [CallCreate "b" (wireOf exampleWorld exampleUnmatched);
        CallUpdate "a" (wireOf exampleWorld exampleLive);
        CallGet "a" "s1"; CallDelete "a" "s1"]).
Proof.
  apply (updateK8sSecrets_stops_at_first_error exampleEnv
           [exampleUnmatched] [exampleTemplate] exampleLive
           (Main.clearIdentity exampleLive) "delete forbidden" exampleWorld
           (mkWorld exampleStore [CallCreate "b" (wireOf exampleWorld exampleUnmatched)])).
  - vm_compute. reflexivity.
  - vm_compute. reflexivity.
Defined.

Lemma Legacy_updateK8sSecrets_cons (env : Env) (secret : Secret)
    (secrets : list Secret) (w : World) :
  Legacy.updateK8sSecrets env (secret :: secrets) w =
  match firstAnswer env w secret with
  | Some e =>
      (Returned (Some e), mkWorld (store w) (calls w ++ [firstRequest w secret]))
  | None =>
      Legacy.updateK8sSecrets env secrets
        (mkWorld (store w) (calls w ++ [firstRequest w secret]))
  end.
Proof.
  cbn [Legacy.updateK8sSecrets]. unfold firstAnswer, firstRequest, snapshot, request.
  rewrite run_bind.
  destruct (String.eqb (UID secret) EmptyString); cbn [negb];
    rewrite !run_bind; cbn [calls store].
  - destruct (onCreate _ _ _ _); reflexivity.
  - destruct (onUpdate _ _ _ _); reflexivity.
Qed.

(** X9. The applier of [src/unnamed/part_001] has no fallback.  It always
    returns, leaves the maps alone, and sends exactly one request, a Create
    or an Update by the UID, for each secret of an initial part of the list:
    the whole list when it reports no error, and otherwise up to the secret
    whose request the cluster refused, the refusal being the error
    reported. *)
Theorem Legacy_updateK8sSecrets_requests (env : Env) (secrets : list Secret) (w : World) :
  ∃ (k : nat) (err : option error),
    Legacy.updateK8sSecrets env secrets w
    = (Returned err,
       mkWorld (store w) (calls w ++ map (firstRequest w) (take k secrets)))
    ∧ (k ≤ List.length secrets)%nat
    ∧ (err = None → k = List.length secrets)
    ∧ (∀ e, err = Some e →
         ∃ j secret, k = S j ∧ secrets !! j = Some secret
           ∧ firstAnswer env
               (mkWorld (store w) (calls w ++ map (firstRequest w) (take j secrets)))
               secret = Some e).
Proof.
  revert w. induction secrets as [|secret secrets IH]; intros w.
  - exists 0%nat, None. simpl. rewrite app_nil_r. destruct w.
    split; [reflexivity|]. split; [lia|]. split; [reflexivity | discriminate].
  - rewrite Legacy_updateK8sSecrets_cons.
    destruct (firstAnswer env w secret) as [e|] eqn:Hfirst.
    + exists 1%nat, (Some e). cbn [take map]. rewrite take_0. cbn [map List.length].
      split; [reflexivity|]. split; [lia|]. split; [discriminate|].
      intros e' [= <-]. exists 0%nat, secret. simpl. rewrite app_nil_r.
      split; [reflexivity|]. split; [reflexivity|]. destruct w. exact Hfirst.
    + destruct (IH (mkWorld (store w) (calls w ++ [firstRequest w secret])))
        as (k & err & Hrun & Hk & Hnone & Hsome).
      exists (S k), err. rewrite Hrun. cbn [store calls].
      split; [simpl; rewrite <- app_assoc; reflexivity|].
      split; [simpl; lia|]. split; [intros H; simpl; rewrite (Hnone H); reflexivity|].
      intros e He. destruct (Hsome e He) as (j & s & -> & Hs & Hans).
      exists (S j), s. split; [reflexivity|]. split; [exact Hs|].
      cbn [store calls] in Hans. rewrite <- app_assoc in Hans. exact Hans.
Qed.

Lemma Contains_append (before s substr : string) :
  Contains s substr = true → Contains (before +:+ s) substr = true.
Proof.
  intros Hs. induction before as [|c before IH]; [exact Hs|].
  rewrite append_cons. cbn [Contains].
  destruct (HasPrefix (String c (before +:+ s)) substr); [reflexivity | exact IH].
Qed.

Lemma patchSecretMetadata_run (env : Env) (secret : Secret) (w : World) :
  Metadata.patchSecretMetadata env secret w =
  (Returned
     match onPatch (cluster env) (calls w) (Namespace secret) (Name secret)
             (Metadata.patchData (wireOf w secret)) with
     | Some e => if Contains e "not found" then None else Some e
     | None => None
     end,
   mkWorld (store w) (calls w ++ [patchRequest w secret])).
Proof.
  unfold Metadata.patchSecretMetadata, snapshot, request, patchRequest.
  rewrite !run_bind. cbn [calls store].
  destruct (onPatch _ _ _ _ _) as [e|]; [destruct (Contains e _)|]; reflexivity.
Qed.

Lemma updateK8sSecretsMetadata_run (env : Env) (secrets : list Secret) (w : World) :
  ∃ (k : nat) (err : option error),
    Metadata.updateK8sSecretsMetadata env secrets w
    = (Returned err,
       mkWorld (store w) (calls w ++ map (patchRequest w) (take k secrets)))
    ∧ (k ≤ List.length secrets)%nat
    ∧ (err = None → k = List.length secrets)
    ∧ (∀ e, err = Some e →
         Contains e "not found" = false
         ∧ ∃ j secret, k = S j ∧ secrets !! j = Some secret
             ∧ onPatch (cluster env)
                 (calls w ++ map (patchRequest w) (take j secrets))
                 (Namespace secret) (Name secret)
                 (Metadata.patchData (wireOf w secret)) = Some e).
Proof.
  revert w. induction secrets as [|secret secrets IH]; intros w.
  - exists 0%nat, None. simpl. rewrite app_nil_r. destruct w.
    split; [reflexivity|]. split; [lia|]. split; [reflexivity | discriminate].
  - cbn [Metadata.updateK8sSecretsMetadata].
    rewrite run_bind, patchSecretMetadata_run.
    destruct (onPatch (cluster env) (calls w) (Namespace secret) (Name secret)
                (Metadata.patchData (wireOf w secret))) as [e|] eqn:Hpatch;
      [destruct (Contains e "not found") eqn:Hnf|].
    2:{ exists 1%nat, (Some e). cbn [take map]. rewrite take_0. cbn [map List.length].
        split; [reflexivity|]. split; [lia|]. split; [discriminate|].
        intros e' [= <-]. split; [exact Hnf|]. exists 0%nat, secret.
        simpl. rewrite app_nil_r. auto. }
    all: destruct (IH (mkWorld (store w) (calls w ++ [patchRequest w secret])))
           as (k & err & Hrun & Hk & Hnone & Hsome);
         exists (S k), err; rewrite Hrun; cbn [store calls];
         (split; [simpl; rewrite <- app_assoc; reflexivity|]);
         (split; [simpl; lia|]);
         (split; [intros H; simpl; rewrite (Hnone H); reflexivity|]);
         intros e' He'; destruct (Hsome e' He') as (Hnf' & j & s & -> & Hs & Hans);
         (split; [exact Hnf'|]); exists (S j), s;
         (split; [reflexivity|]); (split; [exact Hs|]);
         cbn [store calls] in Hans; rewrite <- app_assoc in Hans; exact Hans.
Qed.

(** X10. The patch loop of the maintenance mode always returns, leaves the
    maps alone, and sends exactly one Patch for each secret of an initial
    part of the list: the whole list when it reports no error, and otherwise
    up to the secret whose Patch the cluster answered with the error
    reported, an error that does not mention [not found]. *)
Theorem updateK8sSecretsMetadata_requests (env : Env) (secrets : list Secret) (w : World) :
  ∃ (k : nat) (err : option error),
    Metadata.updateK8sSecretsMetadata env secrets w
    = (Returned err,
       mkWorld (store w) (calls w ++ map (patchRequest w) (take k secrets)))
    ∧ (k ≤ List.length secrets)%nat
    ∧ (err = None → k = List.length secrets)
    ∧ (∀ e, err = Some e →
         Contains e "not found" = false
         ∧ ∃ j secret, k = S j ∧ secrets !! j = Some secret
             ∧ onPatch (cluster env)
                 (calls w ++ map (patchRequest w) (take j secrets))
                 (Namespace secret) (Name secret)
                 (Metadata.patchData (wireOf w secret)) = Some e).
Proof. exact (updateK8sSecretsMetadata_run env secrets w). Qed.

(** X11. When the cluster answers every Patch with success or with an
    error that mentions [not found], the patch loop of the maintenance mode
    reports no error and has sent one Patch for every secret, in order:
    secrets that have disappeared do not stop the run. *)
Theorem updateK8sSecretsMetadata_tolerates_absence
    (env : Env) (secrets : list Secret) (w : World) :
  (∀ past ns name payload e,
     onPatch (cluster env) past ns name payload = Some e →
     Contains e "not found" = true) →
  Metadata.updateK8sSecretsMetadata env secrets w
  = (Returned None, mkWorld (store w) (calls w ++ map (patchRequest w) secrets)).
Proof.
  intros Htolerant.
  destruct (updateK8sSecretsMetadata_run env secrets w)
    as (k & [e|] & Hrun & Hk & Hnone & Hsome).
  - destruct (Hsome e eq_refl) as (Hnf & j & s & _ & _ & Hans).
    rewrite (Htolerant _ _ _ _ _ Hans) in Hnf. discriminate.
  - rewrite Hrun, (Hnone eq_refl), firstn_all. reflexivity.
Qed.

Lemma updateK8sSecretsMetadata_tolerates_absence_witness :
  Metadata.updateK8sSecretsMetadata absentEnv [exampleTemplate; exampleUnmatched]
    exampleWorld
  = (Returned None,
     mkWorld (store exampleWorld)
       (calls exampleWorld
        ++ map (patchRequest exampleWorld) [exampleTemplate; exampleUnmatched])).
Proof.
  apply (updateK8sSecretsMetadata_tolerates_absence absentEnv
           [exampleTemplate; exampleUnmatched] exampleWorld).
  intros past ns name payload e [= <-].
  apply (Contains_append "secrets "), (Contains_append name). reflexivity.
Defined.

(** ** The reconciler of the maintenance mode *)

Lemma Metadata_existingLoop_firstMatch (i : nat) (ls : Secret)
    (existingSecrets newSecrets : list Secret) :
  Metadata.existingLoop i ls existingSecrets newSecrets =
  match firstMatch ls existingSecrets with
  | None => mret newSecrets
  | Some rs =>
      a ← Metadata.mergeAnnotations (Annotations rs) (Annotations ls);
      lb ← Metadata.mergeLabels (Labels rs) (Labels ls);
      mret (<[i := setLabels (setAnnotations ls a) lb]> newSecrets)
  end.
Proof.
  induction existingSecrets as [|rs existingSecrets IH]; simpl; [reflexivity|].
  destruct (sameKey ls rs); [reflexivity | exact IH].
Qed.

Lemma Metadata_existingLoop_returned (i : nat) (ls : Secret)
    (existingSecrets newSecrets res : list Secret) (w w' : World) :
  Metadata.existingLoop i ls existingSecrets newSecrets w = (Returned res, w') →
  calls w' = calls w
  ∧ res = match firstMatch ls existingSecrets with
          | None => newSecrets
          | Some rs =>
              <[i := setLabels (setAnnotations ls (Annotations rs)) (Labels rs)]>
                newSecrets
          end.
Proof.
  rewrite Metadata_existingLoop_firstMatch.
  destruct (firstMatch ls existingSecrets) as [rs|].
  - intros (a & w1 & Ha & Hrest)%bind_returned.
    apply bind_returned in Hrest as (lb & w2 & Hlb & Hret).
    apply mergeMaps_returned in Ha as (-> & _ & _ & Hcalls1).
    apply mergeMaps_returned in Hlb as (-> & _ & _ & Hcalls2).
    rewrite run_ret in Hret. injection Hret as <- <-.
    split; [congruence | reflexivity].
  - rewrite run_ret. intros [= <- <-]. auto.
Qed.

Lemma Metadata_newLoop_returned (m : nat) :
  ∀ (k : nat) (newSecrets existingSecrets res : list Secret) (w w' : World),
    (k + m ≤ List.length newSecrets)%nat →
    Metadata.newLoop (seq k m) existingSecrets newSecrets w = (Returned res, w') →
    calls w' = calls w
    ∧ List.length res = List.length newSecrets
    ∧ (∀ i, (i < k ∨ k + m ≤ i)%nat → res !! i = newSecrets !! i)
    ∧ (∀ i t, (k ≤ i < k + m)%nat → newSecrets !! i = Some t →
         res !! i = Some match firstMatch t existingSecrets with
                         | None => t
                         | Some rs =>
                             setLabels (setAnnotations t (Annotations rs)) (Labels rs)
                         end).
Proof.
  induction m as [|m IH]; intros k newSecrets existingSecrets res w w' Hlen; simpl.
  - rewrite run_ret. intros [= <- <-]. split; [reflexivity|]. split; [reflexivity|].
    split; [reflexivity|]. intros i t Hi Ht. lia.
  - destruct (lookup_lt_is_Some_2 newSecrets k) as [ls Hls]; [lia|].
    rewrite Hls. intros (news1 & w1 & Hstep & Hrest)%bind_returned.
    apply Metadata_existingLoop_returned in Hstep as [Hcalls Hstep].
    set (r := match firstMatch ls existingSecrets with
              | None => ls
              | Some rs => setLabels (setAnnotations ls (Annotations rs)) (Labels rs)
              end).
    assert (news1 = <[k := r]> newSecrets) as ->.
    { subst news1 r. destruct (firstMatch ls existingSecrets); [reflexivity|].
      symmetry. apply list_insert_id, Hls. }
    apply IH in Hrest as (Hcalls' & Hlen' & Hout & Hin);
      [|rewrite length_insert; lia].
    rewrite length_insert in Hlen'.
    split; [congruence|]. split; [exact Hlen'|]. split.
    + intros i Hi. rewrite Hout by lia. apply list_lookup_insert_ne. lia.
    + intros i t Hi Ht. destruct (decide (i = k)) as [->|Hne].
      * rewrite Hout by lia. rewrite list_lookup_insert_eq by lia.
        rewrite Hls in Ht. injection Ht as <-. reflexivity.
      * apply Hin; [lia|]. rewrite list_lookup_insert_ne by lia. exact Ht.
Qed.

(** X12. Whenever the reconciler of the maintenance mode returns, it
    returns as many secrets as it was given, it has sent nothing, and each
    one is the template at its place with at most its two maps replaced:
    namespace, name, data, UID, resourceVersion and creation timestamp are
    the template's own.  A matched template refers to the live secret's two
    map objects; an unmatched one is unchanged. *)
Theorem Metadata_updateSecretMetadata_keeps_template
    (newSecrets existingSecrets res : list Secret) (err : option error)
    (i : nat) (t : Secret) (w w' : World) :
  Metadata.updateSecretMetadata newSecrets existingSecrets w = (Returned (res, err), w') →
  newSecrets !! i = Some t →
  err = None ∧ calls w' = calls w ∧ List.length res = List.length newSecrets
  ∧ ∃ r, res !! i = Some r
         ∧ Namespace r = Namespace t ∧ Name r = Name t ∧ Data r = Data t
         ∧ UID r = UID t ∧ ResourceVersion r = ResourceVersion t
         ∧ CreationTimestamp r = CreationTimestamp t
         ∧ match firstMatch t existingSecrets with
           | Some rs => Labels r = Labels rs ∧ Annotations r = Annotations rs
           | None => r = t
           end.
Proof.
  unfold Metadata.updateSecretMetadata.
  intros (res' & w1 & Hloop & Hret)%bind_returned Ht.
  rewrite run_ret in Hret. injection Hret as <- <- <-.
  apply Metadata_newLoop_returned in Hloop as (Hcalls & Hlen & _ & Hin); [|simpl; lia].
  split; [reflexivity|]. split; [exact Hcalls|]. split; [exact Hlen|].
  eexists. split.
  - apply Hin; [|exact Ht]. apply lookup_lt_Some in Ht. lia.
  - destruct (firstMatch t existingSecrets); simpl; repeat split; reflexivity.
Qed.

Lemma Metadata_updateSecretMetadata_keeps_template_witness :
  (None : option error) = None
  ∧ calls exampleMerged = calls exampleWorld
  ∧ List.length [setLabels exampleTemplate (Some 1%positive)]
    = List.length [exampleTemplate]
  ∧ ∃ r, [setLabels exampleTemplate (Some 1%positive)] !! 0%nat = Some r
         ∧ Namespace r = Namespace exampleTemplate ∧ Name r = Name exampleTemplate
         ∧ Data r = Data exampleTemplate
         ∧ UID r = UID exampleTemplate
         ∧ ResourceVersion r = ResourceVersion exampleTemplate
         ∧ CreationTimestamp r = CreationTimestamp exampleTemplate
         ∧ match firstMatch exampleTemplate [exampleLive] with
           | Some rs => Labels r = Labels rs ∧ Annotations r = Annotations rs
           | None => r = exampleTemplate
           end.
Proof.
  apply (Metadata_updateSecretMetadata_keeps_template
           [exampleTemplate] [exampleLive] [setLabels exampleTemplate (Some 1%positive)]
           None 0 exampleTemplate exampleWorld exampleMerged).
  - vm_compute. reflexivity.
  - reflexivity.
Defined.

(** ** The reconcilers, continued *)

Lemma Legacy_newLoop_length (indices : list nat) :
  ∀ (existingSecrets newSecrets res : list Secret) (w w' : World),
    Legacy.newLoop indices existingSecrets newSecrets w = (Returned res, w') →
    List.length res = List.length newSecrets.
Proof.
  induction indices as [|i indices IH]; intros existingSecrets newSecrets res w w'; simpl.
  - rewrite run_ret. intros [= <- _]. reflexivity.
  - destruct (newSecrets !! i) as [ls|]; [|discriminate].
    rewrite run_bind, Legacy_existingLoop_run. intros Hrest.
    apply IH in Hrest. rewrite Hrest.
    destruct (firstMatch ls existingSecrets); [apply length_insert | reflexivity].
Qed.

(** X13. Reconciliation keeps the number, the order and the keys of the
    templates and sends nothing: whenever the reconciler of [src/main.go]
    returns, and always for that of [src/unnamed/part_001], the result has
    as many secrets as there were templates, and the secret at each place
    has the namespace and the name of the template at that place. *)
Theorem updateSecretData_keeps_keys
    (newSecrets existingSecrets : list Secret) (w : World) :
  (∀ res err w',
     Main.updateSecretData newSecrets existingSecrets w = (Returned (res, err), w') →
     err = None ∧ calls w' = calls w ∧ List.length res = List.length newSecrets
     ∧ ∀ i t, newSecrets !! i = Some t →
              ∃ r, res !! i = Some r ∧ Namespace r = Namespace t ∧ Name r = Name t)
  ∧ (∃ res,
       Legacy.updateSecretData newSecrets existingSecrets w = (Returned (res, None), w)
       ∧ List.length res = List.length newSecrets
       ∧ ∀ i t, newSecrets !! i = Some t →
                ∃ r, res !! i = Some r ∧ Namespace r = Namespace t ∧ Name r = Name t).
Proof.
  split.
  - intros res err w'. unfold Main.updateSecretData.
    intros (res' & w1 & Hloop & Hret)%bind_returned.
    rewrite run_ret in Hret. injection Hret as <- <- <-.
    apply Main_newLoop_returned in Hloop as (Hcalls & Hlen & _ & Hin); [|simpl; lia].
    split; [reflexivity|]. split; [exact Hcalls|]. split; [exact Hlen|].
    intros i t Ht. eexists. split.
    + apply Hin; [|exact Ht]. apply lookup_lt_Some in Ht. lia.
    + destruct (firstMatch t existingSecrets) as [es|] eqn:Hes; simpl; [|auto].
      apply firstMatch_elem in Hes as [_ [Hname Hns]%sameKey_spec]. auto.
  - destruct (Legacy_updateSecretData_run newSecrets existingSecrets w)
      as (res & Hrun & Hres).
    exists res. split; [exact Hrun|]. split.
    + unfold Legacy.updateSecretData in Hrun.
      apply bind_returned in Hrun as (res' & w1 & Hloop & Hret).
      rewrite run_ret in Hret. injection Hret as <- _.
      exact (Legacy_newLoop_length _ _ _ _ _ _ Hloop).
    + intros i t Ht. eexists. split; [apply Hres, Ht|].
      destruct (firstMatch t existingSecrets) as [rs|] eqn:Hrs; simpl; [|auto].
      apply firstMatch_elem in Hrs as [_ [Hname Hns]%sameKey_spec]. auto.
Qed.

Lemma updateSecretData_keeps_keys_witness :
  (None : option error) = None
  ∧ calls exampleMerged = calls exampleWorld
  ∧ List.length [exampleLive] = List.length [exampleTemplate]
  ∧ ∀ i t, [exampleTemplate] !! i = Some t →
           ∃ r, [exampleLive] !! i = Some r
                ∧ Namespace r = Namespace t ∧ Name r = Name t.
Proof.
  apply (proj1 (updateSecretData_keeps_keys [exampleTemplate] [exampleLive] exampleWorld)
           [exampleLive] None exampleMerged).
  vm_compute. reflexivity.
Defined.

(** X14. In [src/main.go], for a matched template whose key no other
    template has, with live secrets that share no map object and template
    maps that are not live maps: whenever the reconciler returns, the
    reconciled secret is the live secret, and in each of its two maps a key
    of the template's map has the template's value, any other key has the
    value the live map had, and no other key is present. *)
Theorem Main_updateSecretData_template_wins
    (newSecrets existingSecrets res : list Secret) (err : option error)
    (i : nat) (t es : Secret) (w w' : World) :
  newSecrets !! i = Some t →
  firstMatch t existingSecrets = Some es →
  (∀ j t', newSecrets !! j = Some t' → j ≠ i →
           ¬ (Name t' = Name t ∧ Namespace t' = Namespace t)) →
  NoDup (liveMaps existingSecrets) →
  (∀ l, l ∈ mapsOf t → l ∉ liveMaps existingSecrets) →
  Main.updateSecretData newSecrets existingSecrets w = (Returned (res, err), w') →
  res !! i = Some es
  ∧ (∀ k, contents w' (Labels es) !! k
          = match contents w (Labels t) !! k with
            | Some v => Some v
            | None => contents w (Labels es) !! k
            end)
  ∧ (∀ k, contents w' (Annotations es) !! k
          = match contents w (Annotations t) !! k with
            | Some v => Some v
            | None => contents w (Annotations es) !! k
            end).
Proof.
  intros Ht Hes Hkeys Hnd Hsep Hrun.
  destruct (Main_updateSecretData_merges_metadata _ _ _ _ _ _ _ _ _
              Ht Hes Hkeys Hnd Hsep Hrun) as (Hres & Hlabels & Hannotations).
  split; [exact Hres|]. rewrite Hlabels, Hannotations.
  split; intros k; rewrite lookup_union.
  - destruct (contents w (Labels t) !! k), (contents w (Labels es) !! k); reflexivity.
  - destruct (contents w (Annotations t) !! k), (contents w (Annotations es) !! k);
      reflexivity.
Qed.

Lemma Main_updateSecretData_template_wins_witness :
  [exampleLive] !! 0%nat = Some exampleLive
  ∧ (∀ k, contents exampleMerged (Labels exampleLive) !! k
          = match contents exampleWorld (Labels exampleTemplate) !! k with
            | Some v => Some v
            | None => contents exampleWorld (Labels exampleLive) !! k
            end)
  ∧ (∀ k, contents exampleMerged (Annotations exampleLive) !! k
          = match contents exampleWorld (Annotations exampleTemplate) !! k with
            | Some v => Some v
            | None => contents exampleWorld (Annotations exampleLive) !! k
            end).
Proof.
  apply (Main_updateSecretData_template_wins
           [exampleTemplate] [exampleLive] [exampleLive] None 0
           exampleTemplate exampleLive exampleWorld exampleMerged).
  - reflexivity.
  - reflexivity.
  - intros [|j] t' Ht' Hj; [contradiction | discriminate].
  - apply (NoDup_singleton 1%positive).
  - intros l Hl Hl'.
    apply (list_elem_of_singleton l 2%positive) in Hl as ->.
    apply (list_elem_of_singleton 2%positive 1%positive) in Hl'. discriminate.
  - vm_compute. reflexivity.
Defined.

(** X15. The reconciler of [src/main.go] writes to map objects of live
    secrets only: whenever it returns, every other map object, so every
    template's map that is not shared with a live secret, is what it was. *)
Theorem Main_updateSecretData_writes_live_maps_only
    (newSecrets existingSecrets res : list Secret) (err : option error)
    (w w' : World) (l : loc) :
  Main.updateSecretData newSecrets existingSecrets w = (Returned (res, err), w') →
  l ∉ liveMaps existingSecrets →
  store w' !! l = store w !! l.
Proof. apply Main_updateSecretData_frame. Qed.

Lemma Main_updateSecretData_writes_live_maps_only_witness :
  store exampleMerged !! 2%positive = store exampleWorld !! 2%positive.
Proof.
  apply (Main_updateSecretData_writes_live_maps_only
           [exampleTemplate] [exampleLive] [exampleLive] None
           exampleWorld exampleMerged 2%positive).
  - vm_compute. reflexivity.
  - intros Hl. apply (list_elem_of_singleton 2%positive 1%positive) in Hl. discriminate.
Defined.

(** ** Discovery *)

Lemma listNamespaces_run (env : Env) (nsc : list string) :
  ∀ (allSecrets : list Secret) (w : World),
    ∃ k, (k ≤ List.length nsc)%nat
         ∧ (listNamespaces env nsc allSecrets w).2
           = mkWorld (store w) (calls w ++ map CallList (take k nsc))
         ∧ match (listNamespaces env nsc allSecrets w).1 with
           | Returned all =>
               k = List.length nsc
               ∧ ∀ s, s ∈ all →
                      s ∈ allSecrets
                      ∨ ∃ j ns items,
                          nsc !! j = Some ns
                          ∧ onList (cluster env)
                              (calls w ++ map CallList (take j nsc)) ns = inl items
                          ∧ s ∈ items
           | Exited status =>
               status = 1%Z
               ∧ ∃ j ns e, k = S j ∧ nsc !! j = Some ns
                           ∧ onList (cluster env)
                               (calls w ++ map CallList (take j nsc)) ns = inr e
           | Panicked => False
           end.
Proof.
  induction nsc as [|ns nsc IH]; intros allSecrets w.
  - exists 0%nat. simpl. rewrite app_nil_r. destruct w.
    split; [lia|]. split; [reflexivity|]. split; [reflexivity | auto].
  - cbn [listNamespaces]. unfold getSecrets, request. rewrite !run_bind. cbn [calls store].
    destruct (onList (cluster env) (calls w) ns) as [items|e] eqn:Hlist.
    + rewrite run_ret. cbn [app].
      destruct (IH (allSecrets ++ items) (mkWorld (store w) (calls w ++ [CallList ns])))
        as (k & Hk & Hworld & Hout).
      exists (S k). split; [simpl; lia|].
      split; [rewrite Hworld; cbn [store calls take map]; rewrite <- app_assoc; reflexivity|].
      destruct (listNamespaces env nsc (allSecrets ++ items) _).1 as [all| |status].
      * destruct Hout as [-> Hall]. split; [reflexivity|].
        intros s Hs. destruct (Hall s Hs) as [Hin|(j & ns' & items' & Hj & Hans & Hin)].
        -- apply elem_of_app in Hin as [Hin|Hin]; [left; exact Hin|].
           right. exists 0%nat, ns, items. simpl. rewrite app_nil_r. auto.
        -- right. exists (S j), ns', items'. split; [exact Hj|]. split; [|exact Hin].
           cbn [store calls take map] in Hans |- *. rewrite <- app_assoc in Hans. exact Hans.
      * contradiction.
      * destruct Hout as [-> (j & ns' & e & -> & Hj & Hans)]. split; [reflexivity|].
        exists (S j), ns', e. split; [reflexivity|]. split; [exact Hj|].
        cbn [store calls take map] in Hans |- *. rewrite <- app_assoc in Hans. exact Hans.
    + rewrite run_ret. exists 1%nat. cbn [take map]. rewrite take_0. cbn [map List.length].
      split; [lia|]. split; [reflexivity|]. simpl. split; [reflexivity|].
      exists 0%nat, ns, e. simpl. rewrite app_nil_r. auto.
Qed.

(** X16. The discovery loop of [main] never panics and leaves the maps
    alone.  It sends one List per namespace, in order, for an initial part
    of the namespaces: all of them when it returns, and then every secret
    of the snapshot was there before or was listed by the cluster for one
    of the namespaces; otherwise it exits with status 1 right after the
    first List that the cluster refused. *)
Theorem listNamespaces_requests (env : Env) (nsc : list string)
    (allSecrets : list Secret) (w : World) :
  ∃ k, (k ≤ List.length nsc)%nat
       ∧ (listNamespaces env nsc allSecrets w).2
         = mkWorld (store w) (calls w ++ map CallList (take k nsc))
       ∧ match (listNamespaces env nsc allSecrets w).1 with
         | Returned all =>
             k = List.length nsc
             ∧ ∀ s, s ∈ all →
                    s ∈ allSecrets
                    ∨ ∃ j ns items,
                        nsc !! j = Some ns
                        ∧ onList (cluster env)
                            (calls w ++ map CallList (take j nsc)) ns = inl items
                        ∧ s ∈ items
         | Exited status =>
             status = 1%Z
             ∧ ∃ j ns e, k = S j ∧ nsc !! j = Some ns
                         ∧ onList (cluster env)
                             (calls w ++ map CallList (take j nsc)) ns = inr e
         | Panicked => False
         end.
Proof. apply listNamespaces_run. Qed.

(** ** The order of the requests of a run *)

Lemma listsThen_stop {A} (Q : Call → Prop) (nsc : list string) (o : Outcome A) :
  listsThen Q nsc (fun w => (o, w)).
Proof.
  intros w. exists 0%nat, []. rewrite take_0. simpl. rewrite app_nil_r.
  split; [reflexivity | constructor].
Qed.

Lemma listsThen_listNamespaces {A} (Q : Call → Prop) (env : Env) (nsc : list string)
    (f : list Secret → Go A) :
  (∀ all, sendsOnly Q (f all)) → listsThen Q nsc (listNamespaces env nsc [] ≫= f).
Proof.
  intros Hf w. rewrite run_bind.
  destruct (listNamespaces_run env nsc [] w) as (k & _ & Hworld & _).
  destruct (listNamespaces env nsc [] w) as [[all| |status] w1]; simpl in Hworld; subst w1.
  - destruct (Hf all (mkWorld (store w) (calls w ++ map CallList (take k nsc))))
      as (writes & Hcalls & HQ).
    exists k, writes. rewrite Hcalls. cbn [calls]. rewrite app_assoc. auto.
  - exists k, []. simpl. rewrite app_nil_r. split; [reflexivity | constructor].
  - exists k, []. simpl. rewrite app_nil_r. split; [reflexivity | constructor].
Qed.

Lemma sendsOnly_Main_newLoop (P : Call → Prop) (indices : list nat)
    (existingSecrets newSecrets : list Secret) :
  sendsOnly P (Main.newLoop indices existingSecrets newSecrets).
Proof.
  revert newSecrets. induction indices as [|i indices IH]; intros newSecrets; simpl.
  - apply sendsOnly_ret.
  - destruct (newSecrets !! i) as [ns|]; [|apply sendsOnly_stop].
    apply sendsOnly_bind; [|intros; apply IH].
    rewrite Main_existingLoop_firstMatch.
    destruct (firstMatch ns existingSecrets); [|apply sendsOnly_ret].
    apply sendsOnly_bind; [apply sendsOnly_mergeMaps|]. intros a.
    apply sendsOnly_bind; [apply sendsOnly_mergeMaps|]. intros lb.
    apply sendsOnly_ret.
Qed.

Lemma sendsOnly_Legacy_newLoop (P : Call → Prop) (indices : list nat)
    (existingSecrets newSecrets : list Secret) :
  sendsOnly P (Legacy.newLoop indices existingSecrets newSecrets).
Proof.
  revert newSecrets. induction indices as [|i indices IH]; intros newSecrets; simpl.
  - apply sendsOnly_ret.
  - destruct (newSecrets !! i) as [ls|]; [|apply sendsOnly_stop].
    apply sendsOnly_bind; [|intros; apply IH].
    intros w. rewrite Legacy_existingLoop_run. exists []. rewrite app_nil_r.
    split; [reflexivity | constructor].
Qed.

Lemma sendsOnly_Main_updateK8sSecrets (env : Env) (secrets : list Secret) :
  sendsOnly applyCall (Main.updateK8sSecrets env secrets).
Proof.
  induction secrets as [|secret secrets IH]; simpl.
  - apply sendsOnly_ret.
  - apply sendsOnly_bind.
    + intros w. rewrite ensureCreateSecret_run.
      assert (applyCall (firstRequest w secret)) as Hfirst
        by (unfold firstRequest; destruct (String.eqb _ _); exact I).
      destruct (firstAnswer env w secret).
      * rewrite deleteRecreateSecret_run. cbn [calls store].
        destruct (onGet _ _ _ _); [|destruct (onDelete _ _ _ _)];
          cbn [snd calls]; rewrite <- app_assoc; eexists;
          (split; [reflexivity|]); repeat constructor; exact Hfirst.
      * eexists. split; [reflexivity|]. repeat constructor. exact Hfirst.
    + intros [secret' [e|]]; [apply sendsOnly_ret | exact IH].
Qed.

Lemma sendsOnly_Legacy_updateK8sSecrets (env : Env) (secrets : list Secret) :
  sendsOnly applyCall (Legacy.updateK8sSecrets env secrets).
Proof.
  induction secrets as [|secret secrets IH]; [apply sendsOnly_ret|].
  intros w. rewrite Legacy_updateK8sSecrets_cons.
  assert (applyCall (firstRequest w secret)) as Hfirst
    by (unfold firstRequest; destruct (String.eqb _ _); exact I).
  destruct (firstAnswer env w secret).
  - eexists. split; [reflexivity|]. repeat constructor. exact Hfirst.
  - destruct (IH (mkWorld (store w) (calls w ++ [firstRequest w secret])))
      as (sent & Hcalls & Hsent).
    exists (firstRequest w secret :: sent). rewrite Hcalls. cbn [calls].
    rewrite <- app_assoc. split; [reflexivity|]. constructor; assumption.
Qed.

Lemma sendsOnly_patches (env : Env) (secrets : list Secret) :
  sendsOnly patchCall (Metadata.updateK8sSecretsMetadata env secrets).
Proof.
  induction secrets as [|secret secrets IH]; simpl.
  - apply sendsOnly_ret.
  - apply sendsOnly_bind.
    + intros w. rewrite patchSecretMetadata_run. eexists. split; [reflexivity|].
      repeat constructor.
    + intros [e|]; [apply sendsOnly_ret | exact IH].
Qed.

Lemma NoDup_take_prefix {A} (l : list A) (k : nat) : NoDup l → NoDup (take k l).
Proof.
  intros Hnd. rewrite <- (take_drop k l) in Hnd. apply NoDup_app in Hnd. tauto.
Qed.

(** X17. In each of the three programs a run reads before it writes,
    whatever its outcome: its requests are first one List for each of an
    initial part of the distinct namespaces of the parsed templates, in
    first-seen order and none twice, and only then requests on single
    secrets, with no List among them: Get, Create, Update and Delete in
    [src/main.go] and [src/unnamed/part_001], which never send a Patch, and
    Patch alone in the maintenance mode.  A failed parse sends nothing. *)
Theorem main_lists_then_writes (env : Env) (w : World) :
  (∃ nss writes,
     calls (Main.main env w).2 = calls w ++ map CallList nss ++ writes
     ∧ NoDup nss ∧ Forall applyCall writes
     ∧ match Main.parseFilesAsSecrets env (getSecretFiles env (secretDirOf env)) with
       | inl sec => nss `prefix_of` secretNamespaces sec
       | inr _ => nss = [] ∧ writes = []
       end)
  ∧ (∃ nss writes,
       calls (Legacy.main env w).2 = calls w ++ map CallList nss ++ writes
       ∧ NoDup nss ∧ Forall applyCall writes
       ∧ match Legacy.parseFilesAsSecrets env (getSecretFiles env (secretDirOf env)) with
         | inl sec => nss `prefix_of` secretNamespaces sec
         | inr _ => nss = [] ∧ writes = []
         end)
  ∧ (∃ nss writes,
       calls (Metadata.main env w).2 = calls w ++ map CallList nss ++ writes
       ∧ NoDup nss ∧ Forall patchCall writes
       ∧ match Metadata.parseFilesAsSecrets env (getSecretFiles env (secretDirOf env)) with
         | inl sec => nss `prefix_of` secretNamespaces sec
         | inr _ => nss = [] ∧ writes = []
         end).
Proof.
  assert (∀ sec k, NoDup (take k (secretNamespaces sec))) as Hnd.
  { intros sec k. apply NoDup_take_prefix.
    rewrite secretNamespaces_firstSeen. apply firstSeen_NoDup. }
  split; [|split].
  - unfold Main.main.
    destruct (Main.parseFilesAsSecrets env _) as [sec|e].
    + destruct (listsThen_listNamespaces applyCall env (secretNamespaces sec)
                  (fun allSecrets =>
                     '(us, uerr) ← Main.updateSecretData sec allSecrets;
                     match uerr with
                     | Some _ => Fatal
                     | None =>
                         uerr ← Main.updateK8sSecrets env us;
                         match uerr with Some _ => Fatal | None => mret tt end
                     end)) with (w := w) as (k & writes & Hcalls & Hwrites).
      { intros all. apply sendsOnly_bind.
        - unfold Main.updateSecretData.
          apply sendsOnly_bind; [apply sendsOnly_Main_newLoop | intros; apply sendsOnly_ret].
        - intros [us [e|]]; [apply sendsOnly_stop|].
          apply sendsOnly_bind; [apply sendsOnly_Main_updateK8sSecrets|].
          intros [e|]; [apply sendsOnly_stop | apply sendsOnly_ret]. }
      exists (take k (secretNamespaces sec)), writes.
      split; [exact Hcalls|]. split; [apply Hnd|]. split; [exact Hwrites | apply prefix_take].
    + exists [], []. simpl. rewrite app_nil_r. repeat split; constructor.
  - unfold Legacy.main.
    destruct (Legacy.parseFilesAsSecrets env _) as [sec|e].
    + destruct (listsThen_listNamespaces applyCall env (secretNamespaces sec)
                  (fun allSecrets =>
                     '(us, uerr) ← Legacy.updateSecretData sec allSecrets;
                     match uerr with
                     | Some _ => Fatal
                     | None =>
                         uerr ← Legacy.updateK8sSecrets env us;
                         match uerr with Some _ => Fatal | None => mret tt end
                     end)) with (w := w) as (k & writes & Hcalls & Hwrites).
      { intros all. apply sendsOnly_bind.
        - unfold Legacy.updateSecretData.
          apply sendsOnly_bind; [apply sendsOnly_Legacy_newLoop | intros; apply sendsOnly_ret].
        - intros [us [e|]]; [apply sendsOnly_stop|].
          apply sendsOnly_bind; [apply sendsOnly_Legacy_updateK8sSecrets|].
          intros [e|]; [apply sendsOnly_stop | apply sendsOnly_ret]. }
      exists (take k (secretNamespaces sec)), writes.
      split; [exact Hcalls|]. split; [apply Hnd|]. split; [exact Hwrites | apply prefix_take].
    + exists [], []. simpl. rewrite app_nil_r. repeat split; constructor.
  - unfold Metadata.main.
    destruct (Metadata.parseFilesAsSecrets env _) as [sec|e].
    + destruct (listsThen_listNamespaces patchCall env (secretNamespaces sec)
                  (fun allSecrets =>
                     '(us, uerr) ← Metadata.updateSecretMetadata sec allSecrets;
                     match uerr with
                     | Some _ => Fatal
                     | None =>
                         uerr ← Metadata.updateK8sSecretsMetadata env us;
                         match uerr with Some _ => Fatal | None => mret tt end
                     end)) with (w := w) as (k & writes & Hcalls & Hwrites).
      { intros all. apply sendsOnly_bind.
        - unfold Metadata.updateSecretMetadata.
          apply sendsOnly_bind; [apply sendsOnly_Metadata_newLoop | intros; apply sendsOnly_ret].
        - intros [us [e|]]; [apply sendsOnly_stop|].
          apply sendsOnly_bind; [apply sendsOnly_patches|].
          intros [e|]; [apply sendsOnly_stop | apply sendsOnly_ret]. }
      exists (take k (secretNamespaces sec)), writes.
      split; [exact Hcalls|]. split; [apply Hnd|]. split; [exact Hwrites | apply prefix_take].
    + exists [], []. simpl. rewrite app_nil_r. repeat split; constructor.
Qed.

(** ** The two merging reconcilers side by side *)

Lemma newLoop_sameEffect (existingSecrets : list Secret) (indices : list nat) :
  NoDup indices →
  ∀ (newSecrets newSecrets' : list Secret) (w : World),
    (∀ i, i ∈ indices → newSecrets !! i = newSecrets' !! i) →
    sameEffect (Main.newLoop indices existingSecrets newSecrets w)
               (Metadata.newLoop indices existingSecrets newSecrets' w).
Proof.
  induction 1 as [|i indices Hi Hnd IH]; intros newSecrets newSecrets' w Hagree.
  - split; [reflexivity | exact I].
  - simpl. rewrite <- (Hagree i) by left.
    destruct (newSecrets !! i) as [t|]; [|split; [reflexivity | exact I]].
    rewrite !run_bind, Main_existingLoop_firstMatch, Metadata_existingLoop_firstMatch.
    destruct (firstMatch t existingSecrets) as [es|].
    + unfold Main.mergeMapStringString, Metadata.mergeAnnotations, Metadata.mergeLabels.
      rewrite !run_bind.
      destruct (mergeMaps (Annotations es) (Annotations t) w) as [[a| |status] w1];
        [|split; [reflexivity | exact I] | split; [reflexivity | reflexivity]].
      rewrite !run_bind.
      destruct (mergeMaps (Labels es) (Labels t) w1) as [[lb| |status] w2];
        [|split; [reflexivity | exact I] | split; [reflexivity | reflexivity]].
      rewrite !run_ret. apply IH. intros j Hj.
      assert (i ≠ j) by (intros ->; contradiction).
      rewrite !list_lookup_insert_ne by assumption. apply Hagree. right. exact Hj.
    + rewrite !run_ret. apply IH. intros j Hj. apply Hagree. right. exact Hj.
Qed.

(** X18. On the same templates and live secrets, the reconciler of
    [src/main.go] and that of the maintenance mode have the same effect:
    they write the same entries to the same map objects, and one returns
    exactly when the other does (both panic on the same inputs).  They
    differ only in the secret they put at a matched template's place. *)
Theorem reconcilers_same_effect (newSecrets existingSecrets : list Secret) (w : World) :
  sameEffect (Main.updateSecretData newSecrets existingSecrets w)
             (Metadata.updateSecretMetadata newSecrets existingSecrets w).
Proof.
  unfold Main.updateSecretData, Metadata.updateSecretMetadata. rewrite !run_bind.
  destruct (newLoop_sameEffect existingSecrets (seq 0 (List.length newSecrets))
              (NoDup_seq _ _) newSecrets newSecrets w (fun _ _ => eq_refl))
    as [Hworld Hkind].
  destruct (Main.newLoop _ _ _ w) as [[res| |status] w1],
           (Metadata.newLoop _ _ _ w) as [[res'| |status'] w1'];
    simpl in Hworld, Hkind; try contradiction; subst; split; auto; reflexivity.
Qed.

(** X19. In the maintenance mode, for a matched template whose key no other
    template has, with live secrets that share no map object and template
    maps that are not live maps: whenever the reconciler returns, the secret
    to patch refers to the live secret's two map objects, and in each of
    them a key of the template's map has the template's value, any other key
    has the value the live map had, and no other key is present. *)
Theorem Metadata_updateSecretMetadata_template_wins
    (newSecrets existingSecrets res : list Secret) (err : option error)
    (i : nat) (t rs : Secret) (w w' : World) :
  newSecrets !! i = Some t →
  firstMatch t existingSecrets = Some rs →
  (∀ j t', newSecrets !! j = Some t' → j ≠ i →
           ¬ (Name t' = Name t ∧ Namespace t' = Namespace t)) →
  NoDup (liveMaps existingSecrets) →
  (∀ l, l ∈ mapsOf t → l ∉ liveMaps existingSecrets) →
  Metadata.updateSecretMetadata newSecrets existingSecrets w = (Returned (res, err), w') →
  ∃ r, res !! i = Some r
       ∧ Labels r = Labels rs ∧ Annotations r = Annotations rs
       ∧ (∀ k, contents w' (Labels r) !! k
               = match contents w (Labels t) !! k with
                 | Some v => Some v
                 | None => contents w (Labels rs) !! k
                 end)
       ∧ (∀ k, contents w' (Annotations r) !! k
               = match contents w (Annotations t) !! k with
                 | Some v => Some v
                 | None => contents w (Annotations rs) !! k
                 end).
Proof.
  intros Ht Hrs Hkeys Hnd Hsep Hrun.
  assert (∃ res', Main.updateSecretData newSecrets existingSecrets w
                  = (Returned (res', None), w')) as [res' Hmain].
  { unfold Main.updateSecretData, Metadata.updateSecretMetadata in *.
    rewrite run_bind in Hrun |- *.
    destruct (newLoop_sameEffect existingSecrets (seq 0 (List.length newSecrets))
                (NoDup_seq _ _) newSecrets newSecrets w (fun _ _ => eq_refl))
      as [Hworld Hkind].
    destruct (Main.newLoop _ _ _ w) as [[res1| |status] w1],
             (Metadata.newLoop _ _ _ w) as [[res2| |status2] w2];
      simpl in Hworld, Hkind; try contradiction; try discriminate.
    rewrite run_ret in Hrun. injection Hrun as _ _ <-. subst w1.
    exists res1. reflexivity. }
  destruct (Main_updateSecretData_merges_metadata _ _ _ _ _ _ _ _ _
              Ht Hrs Hkeys Hnd Hsep Hmain) as (_ & Hlabels & Hannotations).
  unfold Metadata.updateSecretMetadata in Hrun.
  apply bind_returned in Hrun as (res2 & w2 & Hloop & Hret).
  rewrite run_ret in Hret. injection Hret as <- _ _.
  apply Metadata_newLoop_returned in Hloop as (_ & _ & _ & Hin); [|simpl; lia].
  specialize (Hin i t). rewrite Hrs in Hin.
  eexists. split; [apply Hin; [|exact Ht]; apply lookup_lt_Some in Ht; lia|].
  split; [reflexivity|]. split; [reflexivity|].
  cbn [Labels Annotations setLabels setAnnotations].
  rewrite Hlabels, Hannotations.
  split; intros k; rewrite lookup_union.
  - destruct (contents w (Labels t) !! k), (contents w (Labels rs) !! k); reflexivity.
  - destruct (contents w (Annotations t) !! k), (contents w (Annotations rs) !! k);
      reflexivity.
Qed.

Lemma Metadata_updateSecretMetadata_template_wins_witness :
  ∃ r, [setLabels exampleTemplate (Some 1%positive)] !! 0%nat = Some r
       ∧ Labels r = Labels exampleLive ∧ Annotations r = Annotations exampleLive
       ∧ (∀ k, contents exampleMerged (Labels r) !! k
               = match contents exampleWorld (Labels exampleTemplate) !! k with
                 | Some v => Some v
                 | None => contents exampleWorld (Labels exampleLive) !! k
                 end)
       ∧ (∀ k, contents exampleMerged (Annotations r) !! k
               = match contents exampleWorld (Annotations exampleTemplate) !! k with
                 | Some v => Some v
                 | None => contents exampleWorld (Annotations exampleLive) !! k
                 end).
Proof.
  apply (Metadata_updateSecretMetadata_template_wins
           [exampleTemplate] [exampleLive] [setLabels exampleTemplate (Some 1%positive)]
           None 0 exampleTemplate exampleLive exampleWorld exampleMerged).
  - reflexivity.
  - reflexivity.
  - intros [|j] t' Ht' Hj; [contradiction | discriminate].
  - apply (NoDup_singleton 1%positive).
  - intros l Hl Hl'.
    apply (list_elem_of_singleton l 2%positive) in Hl as ->.
    apply (list_elem_of_singleton 2%positive 1%positive) in Hl'. discriminate.
  - vm_compute. reflexivity.
Defined.

(** ** How a run ends *)

Lemma Main_updateK8sSecrets_returns (env : Env) (secrets : list Secret) :
  ∀ w, ∃ err w', Main.updateK8sSecrets env secrets w = (Returned err, w').
Proof.
  induction secrets as [|secret secrets IH]; intros w; [eexists _, _; reflexivity|].
  simpl. rewrite run_bind, ensureCreateSecret_run.
  destruct (firstAnswer env w secret).
  - rewrite deleteRecreateSecret_run. cbn [calls store].
    destruct (onGet _ _ _ _); [eexists _, _; reflexivity|].
    destruct (onDelete _ _ _ _); [eexists _, _; reflexivity|].
    destruct (onCreate _ _ _ _); [eexists _, _; reflexivity | apply IH].
  - apply IH.
Qed.

Lemma Legacy_updateK8sSecrets_returns (env : Env) (secrets : list Secret) :
  ∀ w, ∃ err w', Legacy.updateK8sSecrets env secrets w = (Returned err, w').
Proof.
  induction secrets as [|secret secrets IH]; intros w; [eexists _, _; reflexivity|].
  rewrite Legacy_updateK8sSecrets_cons.
  destruct (firstAnswer env w secret); [eexists _, _; reflexivity | apply IH].
Qed.

Lemma updateK8sSecretsMetadata_returns (env : Env) (secrets : list Secret) :
  ∀ w, ∃ err w', Metadata.updateK8sSecretsMetadata env secrets w = (Returned err, w').
Proof.
  induction secrets as [|secret secrets IH]; intros w; [eexists _, _; reflexivity|].
  simpl. rewrite run_bind, patchSecretMetadata_run.
  destruct (onPatch _ _ _ _ _) as [e|]; [destruct (Contains e _)|];
    [apply IH | eexists _, _; reflexivity | apply IH].
Qed.

Lemma Metadata_updateSecretMetadata_returns
    (newSecrets existingSecrets : list Secret) (w : World) :
  (∀ es, es ∈ existingSecrets → is_Some (Labels es) ∧ is_Some (Annotations es)) →
  ∃ res w',
    Metadata.updateSecretMetadata newSecrets existingSecrets w = (Returned (res, None), w').
Proof.
  intros Hlive.
  destruct (Main_newLoop_returns (seq 0 (List.length newSecrets))
              existingSecrets newSecrets w Hlive) as (res & w' & Hmain).
  { intros i Hi. apply elem_of_seq in Hi. lia. }
  destruct (newLoop_sameEffect existingSecrets (seq 0 (List.length newSecrets))
              (NoDup_seq _ _) newSecrets newSecrets w (fun _ _ => eq_refl))
    as [Hworld Hkind].
  unfold Metadata.updateSecretMetadata. rewrite run_bind.
  rewrite Hmain in Hworld, Hkind.
  destruct (Metadata.newLoop _ _ _ w) as [[res2| |status2] w2];
    simpl in Hkind; try contradiction.
  eexists _, _. reflexivity.
Qed.

(** X20. The run of [src/unnamed/part_001] never panics: it returns or
    exits with status 1.  The runs of [src/main.go] and of the maintenance
    mode do the same when every secret the cluster lists has a label map
    and an annotation map. *)
Theorem main_ends_in_order (env : Env) (w : World) :
  endsInOrder (Legacy.main env w).1
  ∧ ((∀ past ns items s,
        onList (cluster env) past ns = inl items → s ∈ items →
        is_Some (Labels s) ∧ is_Some (Annotations s)) →
     endsInOrder (Main.main env w).1 ∧ endsInOrder (Metadata.main env w).1).
Proof.
  split; [|intros Hmaps; split].
  - unfold Legacy.main.
    destruct (Legacy.parseFilesAsSecrets env _) as [sec|e]; [|reflexivity].
    rewrite run_bind.
    destruct (listNamespaces_run env (secretNamespaces sec) [] w) as (k & _ & _ & Hout).
    destruct (listNamespaces env (secretNamespaces sec) [] w) as [[all| |status] w1];
      simpl in Hout; [|contradiction | apply Hout].
    rewrite run_bind.
    destruct (Legacy_updateSecretData_run sec all w1) as (us & -> & _).
    rewrite run_bind.
    destruct (Legacy_updateK8sSecrets_returns env us w1) as ([e|] & w2 & ->); exact I || reflexivity.
  - unfold Main.main.
    destruct (Main.parseFilesAsSecrets env _) as [sec|e]; [|reflexivity].
    rewrite run_bind.
    destruct (listNamespaces_run env (secretNamespaces sec) [] w) as (k & _ & _ & Hout).
    destruct (listNamespaces env (secretNamespaces sec) [] w) as [[all| |status] w1];
      simpl in Hout; [|contradiction | apply Hout].
    destruct Hout as [_ Hall]. rewrite run_bind.
    destruct (Main_updateSecretData_returns sec all w1) as (us & w2 & ->).
    { intros es Hes. destruct (Hall es Hes) as [Hnil|(j & ns & items & _ & Hans & Hin)];
        [inversion Hnil | exact (Hmaps _ _ _ _ Hans Hin)]. }
    rewrite run_bind.
    destruct (Main_updateK8sSecrets_returns env us w2) as ([e|] & w3 & ->); exact I || reflexivity.
  - unfold Metadata.main.
    destruct (Metadata.parseFilesAsSecrets env _) as [sec|e]; [|reflexivity].
    rewrite run_bind.
    destruct (listNamespaces_run env (secretNamespaces sec) [] w) as (k & _ & _ & Hout).
    destruct (listNamespaces env (secretNamespaces sec) [] w) as [[all| |status] w1];
      simpl in Hout; [|contradiction | apply Hout].
    destruct Hout as [_ Hall]. rewrite run_bind.
    destruct (Metadata_updateSecretMetadata_returns sec all w1) as (us & w2 & ->).
    { intros es Hes. destruct (Hall es Hes) as [Hnil|(j & ns & items & _ & Hans & Hin)];
        [inversion Hnil | exact (Hmaps _ _ _ _ Hans Hin)]. }
    rewrite run_bind.
    destruct (updateK8sSecretsMetadata_returns env us w2) as ([e|] & w3 & ->);
      exact I || reflexivity.
Qed.

Lemma main_ends_in_order_witness :
  endsInOrder (Main.main tidyEnv exampleWorld).1
  ∧ endsInOrder (Metadata.main tidyEnv exampleWorld).1.
Proof.
  apply (proj2 (main_ends_in_order tidyEnv exampleWorld)).
  intros past ns items s. cbn [tidyEnv cluster onList].
  destruct (String.eqb ns "a"); intros [= <-] Hs.
  - apply list_elem_of_singleton in Hs as ->. split; eexists; reflexivity.
  - inversion Hs.
Defined.
